(** * Inductive enumerators: binary strings, zero-free n-digit numbers,
      permutations of a word.

    Shallow embedding of [induction/generate_binary_numbers.py],
    [induction/generate_n_digit_numbers.py] and
    [induction/generate_permutations.py], followed by the properties of
    the three generators.

    Python values are modelled as follows: [int] is [Z]; [str] is
    [string], a one-character [str] obtained by indexing is [ascii];
    a Python list is a Rocq [list]; an [IndexError] is [None]. *)

From Stdlib Require Import ZArith List String Ascii Bool Arith Lia.
From Stdlib Require Import Permutation Sorted.
From Equations Require Import Equations.
Import ListNotations.

Local Open Scope string_scope.
Local Open Scope list_scope.
Local Open Scope Z_scope.

(* ===================================================================== *)
(** ** Python built-ins used by the sources *)
(* ===================================================================== *)

(** [range(start, stop)]: the integers [start, start+1, ..., stop-1],
    empty when [stop <= start]. *)
Definition range (start stop : Z) : list Z :=
  map (fun i => start + Z.of_nat i) (seq 0 (Z.to_nat (stop - start))).

(** [len(word)]. *)
Definition len (word : string) : Z := Z.of_nat (String.length word).

(** A negative index counts from the end of the sequence. *)
Definition from_end (word : string) (i : Z) : Z :=
  if i <? 0 then i + len word else i.

(** A slice bound is first counted from the end when negative, then
    clamped to [0 .. len(word)]. *)
Definition slice_bound (word : string) (i : Z) : nat :=
  Z.to_nat (Z.min (len word) (Z.max 0 (from_end word i))).

(** [word[:stop]]. *)
Definition slice_to (word : string) (stop : Z) : string :=
  substring 0 (slice_bound word stop) word.

(** [word[start:]]. *)
Definition slice_from (word : string) (start : Z) : string :=
  let b := slice_bound word start in
  substring b (String.length word - b) word.

(** [word[i]]: [None] stands for [IndexError]. *)
Definition item (word : string) (i : Z) : option ascii :=
  let j := from_end word i in
  if (0 <=? j) && (j <? len word) then get (Z.to_nat j) word else None.

(** What a call of a recursive function does under a bound on the number
    of nested recursive calls. *)
Inductive outcome (A : Type) : Type :=
| Returns (a : A)       (* the call returns [a] *)
| Raises                (* the call raises [IndexError] *)
| TooDeep.              (* the recursion budget is exhausted *)
Arguments Returns {A} a.
Arguments Raises {A}.
Arguments TooDeep {A}.

(* ===================================================================== *)
(** ** generate_binary_numbers.py *)
(* ===================================================================== *)

(** The comprehension
    [[num + suffix for num in binary_nums for suffix in ["0", "1"]]]. *)
Definition append_suffixes (binary_nums : list string) : list string :=
  flat_map (fun num => map (fun suffix => (num ++ suffix)%string) ["0"; "1"])
           binary_nums.

(** [generate_binary_nums(n)] for a non-negative [n]. *)
Fixpoint generate_binary_nums (n : nat) : list string :=
  match n with
  | O => [""]
  | S n' =>
      let binary_nums := generate_binary_nums n' in
      append_suffixes binary_nums
  end.

(** The same function on a Python [int], run with at most [depth] nested
    recursive calls. *)
Fixpoint generate_binary_nums_within (depth : nat) (n : Z)
  : outcome (list string) :=
  if n =? 0 then Returns [""]
  else
    match depth with
    | O => TooDeep
    | S depth' =>
        match generate_binary_nums_within depth' (n - 1) with
        | Returns binary_nums => Returns (append_suffixes binary_nums)
        | Raises => Raises
        | TooDeep => TooDeep
        end
    end.

(* ===================================================================== *)
(** ** generate_n_digit_numbers.py *)
(* ===================================================================== *)

(** The two nested [for] loops of the induction step: [result] starts
    empty and receives [digit * 10 ** (n - 1) + prev_num], the digits in
    the outer loop and the previous numbers in the inner one. *)
Definition prepend_digits (n : Z) (prev_numbers : list Z) : list Z :=
  fold_left
    (fun result digit =>
       fold_left
         (fun result prev_num =>
            let base_num := 10 ^ (n - 1) in
            let curr_num := digit * base_num + prev_num in
            result ++ [curr_num])
         prev_numbers result)
    (range 1 10) [].

(** [generate_n_digit_numbers_no_zeros_recursive(n)] for a non-negative
    [n]. *)
Fixpoint generate_n_digit_numbers_no_zeros_recursive (n : nat) : list Z :=
  match n with
  | O => []
  | S O => [1; 2; 3; 4; 5; 6; 7; 8; 9]
  | S (S _ as n') =>
      let prev_numbers := generate_n_digit_numbers_no_zeros_recursive n' in
      prepend_digits (Z.of_nat n) prev_numbers
  end.

(** The same function on a Python [int], run with at most [depth] nested
    recursive calls. *)
Fixpoint generate_n_digit_numbers_no_zeros_within (depth : nat) (n : Z)
  : outcome (list Z) :=
  if n =? 0 then Returns []
  else if n =? 1 then Returns [1; 2; 3; 4; 5; 6; 7; 8; 9]
  else
    match depth with
    | O => TooDeep
    | S depth' =>
        match generate_n_digit_numbers_no_zeros_within depth' (n - 1) with
        | Returns prev_numbers => Returns (prepend_digits n prev_numbers)
        | Raises => Raises
        | TooDeep => TooDeep
        end
    end.

(** The loop [while n > 0: digit_sum += n % 10; n //= 10], returning the
    final value of [digit_sum]. *)
Equations? digit_sum_while (digit_sum n : Z) : Z by wf (Z.to_nat n) lt :=
  digit_sum_while digit_sum n with Z_lt_dec 0 n => {
    | left _ := digit_sum_while (digit_sum + n mod 10) (n / 10);
    | right _ := digit_sum }.
Proof.
  assert (n / 10 < n) by (apply Z.div_lt; lia).
  assert (0 <= n / 10) by (apply Z.div_pos; lia).
  lia.
Qed.

(** [filter_numbers_by_digit_sum(numbers, k)]. *)
Definition filter_numbers_by_digit_sum (numbers : list Z) (k : Z) : list Z :=
  fold_left
    (fun result num =>
       let digit_sum := digit_sum_while 0 num in
       if digit_sum =? k then result ++ [num] else result)
    numbers [].

(** [generate_n_digit_numbers_summing_to_k(n, k)]. *)
Definition generate_n_digit_numbers_summing_to_k (n : nat) (k : Z) : list Z :=
  let numbers := generate_n_digit_numbers_no_zeros_recursive n in
  filter_numbers_by_digit_sum numbers k.

(** [generate_n_digit_numbers_no_zeros(n)], the source's "simpler version
    of the solution, without recursion" (named with the suffix of its
    caller here):
    [list(range(10 ** (n - 1), 10**n))].  For [n <= 0] the power
    [10 ** (n - 1)] has a negative exponent and is a [float], which
    [range] refuses with a [TypeError]: [None]. *)
Definition generate_n_digit_numbers_no_zeros_simple (n : Z) : option (list Z) :=
  if n - 1 <? 0 then None
  else Some (range (10 ^ (n - 1)) (10 ^ n)).

(** [generate_n_digit_numbers_summing_to_k_simple(n, k)]. *)
Definition generate_n_digit_numbers_summing_to_k_simple (n k : Z)
  : option (list Z) :=
  match generate_n_digit_numbers_no_zeros_simple n with
  | None => None
  | Some numbers => Some (filter_numbers_by_digit_sum numbers k)
  end.

(* ===================================================================== *)
(** ** generate_permutations.py *)
(* ===================================================================== *)

(** [interpolate(ch, word)]:
    [[word[:pos] + ch + word[pos:] for pos in range(len(word) + 1)]]. *)
Definition interpolate (ch : ascii) (word : string) : list string :=
  map (fun pos => (slice_to word pos ++ String ch (slice_from word pos))%string)
      (range 0 (len word + 1)).

(** [word[:pos] + word[pos + 1:]]. *)
Definition remove_at (word : string) (pos : Z) : string :=
  (slice_to word pos ++ slice_from word (pos + 1))%string.

(** The comprehension
    [[interpolation for perm in perms for interpolation in interpolate(ch, perm)]]. *)
Definition interpolate_all (ch : ascii) (perms : list string) : list string :=
  flat_map (fun perm => interpolate ch perm) perms.

(** [generate_permutations(word, pos)] for a non-negative [pos].  The
    recursive call comes before [ch = word[pos]], so an [IndexError]
    of the recursion wins over one of the indexing. *)
Fixpoint generate_permutations (word : string) (pos : nat)
  : option (list string) :=
  match pos with
  | O => Some [word]
  | S pos' =>
      let curr_word := remove_at word (Z.of_nat pos) in
      match generate_permutations curr_word pos' with
      | None => None
      | Some perms =>
          match item word (Z.of_nat pos) with
          | None => None
          | Some ch => Some (interpolate_all ch perms)
          end
      end
  end.

(** The same function on a Python [int], run with at most [depth] nested
    recursive calls. *)
Fixpoint generate_permutations_within (depth : nat) (word : string) (pos : Z)
  : outcome (list string) :=
  if pos =? 0 then Returns [word]
  else
    match depth with
    | O => TooDeep
    | S depth' =>
        let curr_word := remove_at word pos in
        match generate_permutations_within depth' curr_word (pos - 1) with
        | Returns perms =>
            match item word pos with
            | None => Raises
            | Some ch => Returns (interpolate_all ch perms)
            end
        | Raises => Raises
        | TooDeep => TooDeep
        end
    end.

(* ===================================================================== *)
(** ** Vocabulary of the specification *)
(* ===================================================================== *)

(** The characters of a string, first character first. *)
Definition chars (s : string) : list ascii := list_ascii_of_string s.

(** A binary string is made of the characters ['0'] and ['1'] only. *)
Definition is_binary_string (s : string) : Prop :=
  Forall (fun c => c = "0"%char \/ c = "1"%char) (chars s).

(** Lexicographic order of strings, characters compared by code point:
    a proper prefix comes first, otherwise the first differing character
    decides. *)
Inductive lex_lt : string -> string -> Prop :=
| lex_lt_prefix c t : lex_lt "" (String c t)
| lex_lt_head c d s t :
    (nat_of_ascii c < nat_of_ascii d)%nat -> lex_lt (String c s) (String d t)
| lex_lt_tail c s t : lex_lt s t -> lex_lt (String c s) (String c t).

(** The list the specification calls "S0 followed by S1": every element
    of [S] with "0" appended, then every element of [S] with "1"
    appended. *)
Definition S0_then_S1 (S : list string) : list string :=
  map (fun s => (s ++ "0")%string) S ++ map (fun s => (s ++ "1")%string) S.

(** The value of a list of decimal digits, most significant digit
    first. *)
Fixpoint decimal_value (ds : list Z) : Z :=
  match ds with
  | [] => 0
  | d :: ds' => d * 10 ^ Z.of_nat (List.length ds') + decimal_value ds'
  end.

Definition is_digit (d : Z) : Prop := 0 <= d <= 9.

(** [ds] is the decimal representation of [num]: digits between 0 and 9,
    most significant first, no leading zero unless the number is 0
    (written "0"). *)
Definition is_decimal_representation (ds : list Z) (num : Z) : Prop :=
  Forall is_digit ds /\
  (ds = [0] \/ exists d ds', ds = d :: ds' /\ d <> 0) /\
  decimal_value ds = num.

Definition sum_of (ds : list Z) : Z := fold_right Z.add 0 ds.

(** The base-10 digit sum of [num] is [s]. *)
Definition has_digit_sum (num s : Z) : Prop :=
  exists ds, is_decimal_representation ds num /\ sum_of ds = s.

(** [keeps P l l']: [l'] is [l] with exactly the elements satisfying [P]
    kept, in their order in [l]. *)
Inductive keeps {A : Type} (P : A -> Prop) : list A -> list A -> Prop :=
| keeps_nil : keeps P [] []
| keeps_yes x l l' : P x -> keeps P l l' -> keeps P (x :: l) (x :: l')
| keeps_no x l l' : ~ P x -> keeps P l l' -> keeps P (x :: l) l'.

(** [l] with [x] inserted immediately before index [i]. *)
Definition insert_at {A : Type} (i : nat) (x : A) (l : list A) : list A :=
  firstn i l ++ x :: skipn i l.

(** A list of digits between 1 and 9. *)
Definition zero_free (ds : list Z) : Prop := Forall (fun d => 1 <= d <= 9) ds.

(** The decimal representation of [num] contains no digit 0. *)
Definition has_no_zero_digit (num : Z) : Prop :=
  exists ds, is_decimal_representation ds num /\ Forall (fun d => d <> 0) ds.



(** The string read backwards. *)
Definition reversed (s : string) : string :=
  string_of_list_ascii (rev (chars s)).

(* ===================================================================== *)
(** ** Strings as lists of characters *)
(* ===================================================================== *)

Section Chars.

Lemma chars_append (s t : string) : chars (s ++ t) = chars s ++ chars t.
Proof.
  induction s as [|c s IH]; simpl; [reflexivity|].
  now rewrite IH.
Qed.

Lemma chars_length (s : string) :
  List.length (chars s) = String.length s.
Proof. induction s; simpl; congruence. Qed.

Lemma chars_inj (s t : string) : chars s = chars t -> s = t.
Proof.
  intros H.
  rewrite <- (string_of_list_ascii_of_string s).
  rewrite <- (string_of_list_ascii_of_string t).
  unfold chars in H. now rewrite H.
Qed.

Lemma chars_of_list (l : list ascii) : chars (string_of_list_ascii l) = l.
Proof. apply list_ascii_of_string_of_list_ascii. Qed.

Lemma chars_substring (n m : nat) (s : string) :
  chars (substring n m s) = firstn m (skipn n (chars s)).
Proof.
  revert n m.
  induction s as [|c s IH]; intros [|n] [|m]; simpl; try reflexivity.
  - now rewrite (IH 0%nat m).
  - apply IH.
  - apply IH.
Qed.

Lemma chars_get (n : nat) (s : string) : get n s = nth_error (chars s) n.
Proof.
  revert n.
  induction s as [|c s IH]; intros [|n]; simpl; try reflexivity.
  apply IH.
Qed.

Lemma length_append (s t : string) :
  String.length (s ++ t) = (String.length s + String.length t)%nat.
Proof.
  rewrite <- !chars_length, chars_append. apply length_app.
Qed.

(** A non-empty string is a string followed by its last character. *)
Lemma string_snoc (s : string) (n : nat) :
  String.length s = S n ->
  exists t c, s = (t ++ String c "")%string /\ String.length t = n.
Proof.
  intros Hlen.
  assert (Hne : chars s <> []).
  { intros E. rewrite <- chars_length, E in Hlen. discriminate. }
  destruct (exists_last Hne) as (l & c & E).
  exists (string_of_list_ascii l), c. split.
  - apply chars_inj.
    now rewrite chars_append, chars_of_list.
  - rewrite <- chars_length, chars_of_list.
    rewrite <- chars_length, E, length_app in Hlen. simpl in Hlen. lia.
Qed.

Lemma append_snoc_inj (s t : string) (c d : ascii) :
  (s ++ String c "")%string = (t ++ String d "")%string -> s = t /\ c = d.
Proof.
  intros H. apply (f_equal chars) in H.
  rewrite !chars_append in H. simpl in H.
  apply app_inj_tail in H. destruct H as [H1 H2].
  split; [now apply chars_inj | exact H2].
Qed.

End Chars.

(* ===================================================================== *)
(** ** Binary strings *)
(* ===================================================================== *)

Section BinaryNums.

Lemma append_suffixes_pairs (l : list string) :
  append_suffixes l =
  flat_map (fun num => [(num ++ "0")%string; (num ++ "1")%string]) l.
Proof. reflexivity. Qed.

Lemma append_suffixes_cons (s : string) (l : list string) :
  append_suffixes (s :: l) =
  (s ++ "0")%string :: (s ++ "1")%string :: append_suffixes l.
Proof. reflexivity. Qed.

Lemma length_append_suffixes (l : list string) :
  List.length (append_suffixes l) = (2 * List.length l)%nat.
Proof.
  induction l as [|s l IH]; [reflexivity|].
  rewrite append_suffixes_cons. simpl List.length. lia.
Qed.

Lemma in_append_suffixes (s : string) (l : list string) :
  In s (append_suffixes l) <->
  exists t, In t l /\ (s = (t ++ "0")%string \/ s = (t ++ "1")%string).
Proof.
  rewrite append_suffixes_pairs, in_flat_map. split.
  - intros (t & Ht & Hs). exists t. split; [exact Ht|].
    simpl in Hs. destruct Hs as [Hs|[Hs|[]]]; auto.
  - intros (t & Ht & Hs). exists t. split; [exact Ht|].
    simpl. destruct Hs as [Hs|Hs]; auto.
Qed.

Lemma length_generate_binary_nums (n : nat) :
  List.length (generate_binary_nums n) = (2 ^ n)%nat.
Proof.
  induction n as [|n IH]; [reflexivity|].
  simpl generate_binary_nums. rewrite length_append_suffixes, IH.
  simpl. lia.
Qed.

Lemma is_binary_snoc (t : string) (c : ascii) :
  is_binary_string (t ++ String c "") <->
  is_binary_string t /\ (c = "0"%char \/ c = "1"%char).
Proof.
  unfold is_binary_string. rewrite chars_append, Forall_app. simpl.
  split.
  - intros [Ht Hc]. split; [exact Ht|]. now inversion Hc.
  - intros [Ht Hc]. split; [exact Ht|]. constructor; [exact Hc|constructor].
Qed.

(** The members of [generate_binary_nums n] are the binary strings of
    length [n]. *)
Lemma in_generate_binary_nums (n : nat) (s : string) :
  In s (generate_binary_nums n) <->
  String.length s = n /\ is_binary_string s.
Proof.
  revert s. induction n as [|n IH]; intros s.
  - simpl. split.
    + intros [<-|[]]. split; [reflexivity|constructor].
    + intros [Hlen _]. left. destruct s; [reflexivity|discriminate].
  - simpl generate_binary_nums. rewrite in_append_suffixes. split.
    + intros (t & Ht & Hs). apply IH in Ht. destruct Ht as [Hlen Hbin].
      destruct Hs as [-> | ->]; rewrite length_append, is_binary_snoc;
        simpl; (split; [lia|split; auto]).
    + intros [Hlen Hbin].
      destruct (string_snoc s n Hlen) as (t & c & -> & Ht).
      apply is_binary_snoc in Hbin. destruct Hbin as [Hbin Hc].
      exists t. split; [apply IH; auto|].
      destruct Hc as [-> | ->]; auto.
Qed.

Lemma lex_lt_irrefl (s : string) : ~ lex_lt s s.
Proof.
  induction s as [|c s IH]; intros H; inversion H; subst;
    [eapply Nat.lt_irrefl; eassumption | auto].
Qed.

Lemma lex_lt_append_same (s : string) : lex_lt (s ++ "0") (s ++ "1").
Proof.
  induction s as [|c s IH]; simpl.
  - apply lex_lt_head. apply Nat.ltb_lt. reflexivity.
  - now apply lex_lt_tail.
Qed.

Lemma lex_lt_append (s t a b : string) :
  String.length s = String.length t ->
  lex_lt s t -> lex_lt (s ++ a) (t ++ b).
Proof.
  intros Hlen H. induction H; simpl in *.
  - discriminate.
  - now apply lex_lt_head.
  - apply lex_lt_tail. apply IHlex_lt. lia.
Qed.

Lemma StronglySorted_append_suffixes (n : nat) (l : list string) :
  Forall (fun s => String.length s = n) l ->
  StronglySorted lex_lt l ->
  StronglySorted lex_lt (append_suffixes l).
Proof.
  intros Hlen Hs. induction Hs as [|s l Hs IH Hall].
  - constructor.
  - inversion Hlen as [|? ? Hs_len Hl_len]; subst.
    rewrite append_suffixes_cons.
    assert (Hnext : forall a, Forall (lex_lt (s ++ a)) (append_suffixes l)).
    { intros a. apply Forall_forall. intros u Hu.
      apply in_append_suffixes in Hu. destruct Hu as (t & Ht & Hu).
      assert (lex_lt s t) by (rewrite Forall_forall in Hall; auto).
      assert (String.length s = String.length t).
      { rewrite Forall_forall in Hl_len. rewrite (Hl_len t Ht). reflexivity. }
      destruct Hu as [-> | ->]; now apply lex_lt_append. }
    constructor; [constructor|].
    + now apply IH.
    + apply Hnext.
    + constructor; [apply lex_lt_append_same | apply Hnext].
Qed.

Lemma StronglySorted_generate_binary_nums (n : nat) :
  StronglySorted lex_lt (generate_binary_nums n).
Proof.
  induction n as [|n IH].
  - simpl. repeat constructor.
  - simpl generate_binary_nums.
    apply (StronglySorted_append_suffixes n); [|exact IH].
    apply Forall_forall. intros s Hs.
    now apply in_generate_binary_nums in Hs.
Qed.

Lemma StronglySorted_NoDup {A : Type} (R : A -> A -> Prop) (l : list A) :
  (forall x, ~ R x x) -> StronglySorted R l -> NoDup l.
Proof.
  intros Hirr Hs. induction Hs as [|x l Hs IH Hall]; constructor; auto.
  intros Hin. rewrite Forall_forall in Hall. exact (Hirr x (Hall x Hin)).
Qed.

End BinaryNums.

(** C1. For every [n >= 0], [generate_binary_nums(n)] has [2^n] elements,
    its elements are exactly the strings of length [n] over ['0'] and
    ['1'], they are pairwise distinct and listed in strictly increasing
    lexicographic order; for [n = 0, 1, 2] the results are [[""]],
    [["0","1"]] and [["00","01","10","11"]]. *)
Theorem generate_binary_nums_all_binary_strings (n : nat) :
  List.length (generate_binary_nums n) = (2 ^ n)%nat /\
  (forall s, In s (generate_binary_nums n) <->
             String.length s = n /\ is_binary_string s) /\
  NoDup (generate_binary_nums n) /\
  StronglySorted lex_lt (generate_binary_nums n) /\
  generate_binary_nums 0 = [""] /\
  generate_binary_nums 1 = ["0"; "1"] /\
  generate_binary_nums 2 = ["00"; "01"; "10"; "11"].
Proof.
  split; [apply length_generate_binary_nums|].
  split; [intros s; apply in_generate_binary_nums|].
  split.
  { apply (StronglySorted_NoDup lex_lt); [apply lex_lt_irrefl|].
    apply StronglySorted_generate_binary_nums. }
  split; [apply StronglySorted_generate_binary_nums|].
  repeat split.
Qed.

Section InductionStep.

Lemma append_suffixes_Permutation (l : list string) :
  Permutation (append_suffixes l) (S0_then_S1 l).
Proof.
  unfold S0_then_S1. induction l as [|s l IH]; [constructor|].
  rewrite append_suffixes_cons. simpl. apply perm_skip.
  now apply Permutation_cons_app.
Qed.

Lemma generate_binary_nums_nonempty (n : nat) :
  exists s l, generate_binary_nums n = s :: l.
Proof.
  pose proof (length_generate_binary_nums n) as Hlen.
  destruct (generate_binary_nums n) as [|s l]; [|eauto].
  simpl in Hlen. pose proof (Nat.pow_nonzero 2 n). lia.
Qed.

(** From [n = 2] on, the second element of the result is the first
    element of [S] followed by "1", whereas the second element of
    "S0 followed by S1" ends in "0". *)
Lemma generate_binary_nums_not_S0_then_S1 (n : nat) :
  generate_binary_nums (S (S n)) <>
  S0_then_S1 (generate_binary_nums (S n)).
Proof.
  simpl generate_binary_nums.
  destruct (generate_binary_nums_nonempty n) as (s & l & ->).
  rewrite !append_suffixes_cons. unfold S0_then_S1. simpl.
  intros H. injection H as H _.
  apply append_snoc_inj in H. destruct H as [_ H]. discriminate.
Qed.

End InductionStep.

(** C2, as stated, fails at [n = 2]: the result is
    [["00","01","10","11"]] while S0 followed by S1 is
    [["00","10","01","11"]]. *)
Lemma generate_binary_nums_2_is_not_S0_then_S1 :
  generate_binary_nums 2 = ["00"; "01"; "10"; "11"] /\
  S0_then_S1 (generate_binary_nums (2 - 1)) = ["00"; "10"; "01"; "11"] /\
  generate_binary_nums 2 <> S0_then_S1 (generate_binary_nums (2 - 1)).
Proof.
  split; [reflexivity|]. split; [reflexivity|]. discriminate.
Qed.

(** C2, amended. For every [n >= 1], with [S = generate_binary_nums(n-1)],
    [generate_binary_nums(n)] lists, for each element [s] of [S] in the
    order of [S], [s + "0"] immediately followed by [s + "1"]; it is a
    rearrangement of S0 followed by S1, and equal to it only for
    [n = 1]. *)
Theorem generate_binary_nums_step (n : nat) (Hn : (1 <= n)%nat) :
  let S := generate_binary_nums (n - 1) in
  generate_binary_nums n =
    flat_map (fun s => [(s ++ "0")%string; (s ++ "1")%string]) S /\
  Permutation (generate_binary_nums n) (S0_then_S1 S) /\
  (generate_binary_nums n = S0_then_S1 S <-> n = 1%nat).
Proof.
  destruct n as [|n]; [lia|].
  replace (S n - 1)%nat with n by lia. cbv zeta.
  split; [reflexivity|].
  split; [apply append_suffixes_Permutation|].
  destruct n as [|n].
  - split; reflexivity.
  - split; [|discriminate].
    intros H. now apply generate_binary_nums_not_S0_then_S1 in H.
Qed.

Lemma generate_binary_nums_step_witness :
  (1 <= 3)%nat /\
  Permutation (generate_binary_nums 3) (S0_then_S1 (generate_binary_nums (3 - 1))).
Proof.
  split; [lia|].
  apply (generate_binary_nums_step 3). lia.
Defined.

(* ===================================================================== *)
(** ** Decimal digits *)
(* ===================================================================== *)

Section Decimal.

Lemma pow10_pos (k : nat) : 0 < 10 ^ Z.of_nat k.
Proof. apply Z.pow_pos_nonneg; lia. Qed.

Lemma pow10_succ (k : nat) : 10 ^ Z.of_nat (S k) = 10 * 10 ^ Z.of_nat k.
Proof. rewrite Nat2Z.inj_succ. apply Z.pow_succ_r. lia. Qed.

Lemma decimal_value_app (ds es : list Z) :
  decimal_value (ds ++ es) =
  decimal_value ds * 10 ^ Z.of_nat (List.length es) + decimal_value es.
Proof.
  induction ds as [|d ds IH]; simpl; [lia|].
  rewrite IH, length_app, Nat2Z.inj_add, Z.pow_add_r by lia. ring.
Qed.

Lemma decimal_value_snoc (ds : list Z) (d : Z) :
  decimal_value (ds ++ [d]) = 10 * decimal_value ds + d.
Proof.
  rewrite decimal_value_app. cbn [List.length decimal_value].
  change (10 ^ Z.of_nat 1) with 10. change (10 ^ Z.of_nat 0) with 1. lia.
Qed.

Lemma decimal_value_bound (ds : list Z) :
  Forall is_digit ds ->
  0 <= decimal_value ds < 10 ^ Z.of_nat (List.length ds).
Proof.
  induction 1 as [|d ds Hd Hds IH]; [simpl; lia|].
  cbn [decimal_value List.length]. rewrite pow10_succ.
  pose proof (pow10_pos (List.length ds)). unfold is_digit in Hd. nia.
Qed.

Lemma decimal_value_lower (d : Z) (ds : list Z) :
  1 <= d -> Forall is_digit ds ->
  10 ^ Z.of_nat (List.length ds) <= decimal_value (d :: ds).
Proof.
  intros Hd Hds. pose proof (decimal_value_bound ds Hds).
  cbn [decimal_value]. nia.
Qed.

(** Two digit lists of the same length with the same value are equal. *)
Lemma decimal_value_inj (ds es : list Z) :
  Forall is_digit ds -> Forall is_digit es ->
  List.length ds = List.length es ->
  decimal_value ds = decimal_value es -> ds = es.
Proof.
  intros Hds. revert es.
  induction Hds as [|d ds Hd Hds IH]; intros [|e es] Hes Hlen Hval;
    try discriminate; [reflexivity|].
  inversion Hes as [|? ? He Hes']; subst.
  injection Hlen as Hlen. cbn [decimal_value] in Hval. rewrite <- Hlen in Hval.
  pose proof (decimal_value_bound ds Hds) as B1.
  pose proof (decimal_value_bound es Hes') as B2. rewrite <- Hlen in B2.
  assert (d = e) by nia. subst e.
  f_equal. apply IH; auto. lia.
Qed.

Lemma decimal_representation_length (ds : list Z) (num : Z) (k : nat) :
  is_decimal_representation ds num ->
  10 ^ Z.of_nat k <= num < 10 ^ Z.of_nat (S k) ->
  List.length ds = S k.
Proof.
  intros (Hds & Hlead & Hval) Hnum.
  pose proof (pow10_pos k) as Hk.
  destruct Hlead as [-> | (d & ds' & -> & Hd)].
  - simpl in Hval. lia.
  - inversion Hds as [|? ? Hd' Hds']; subst.
    assert (1 <= d) by (unfold is_digit in Hd'; lia).
    pose proof (decimal_value_lower d ds' H Hds') as Hlow.
    pose proof (decimal_value_bound (d :: ds') Hds) as Hup.
    cbn [List.length] in *.
    destruct (Nat.lt_trichotomy (List.length ds') k) as [Hlt|[Heq|Hgt]];
      [exfalso | congruence | exfalso].
    + assert (10 ^ Z.of_nat (S (List.length ds')) <= 10 ^ Z.of_nat k)
        by (apply Z.pow_le_mono_r; lia).
      lia.
    + assert (10 ^ Z.of_nat (S k) <= 10 ^ Z.of_nat (List.length ds'))
        by (apply Z.pow_le_mono_r; lia).
      lia.
Qed.

(** A number has at most one decimal representation. *)
Lemma decimal_representation_unique (ds es : list Z) (num : Z) :
  is_decimal_representation ds num ->
  is_decimal_representation es num -> ds = es.
Proof.
  intros Hd He.
  assert (Hlen : List.length ds = List.length es).
  { destruct Hd as (Hds & Hlead & Hval).
    destruct Hlead as [-> | (d & ds' & -> & Hd)].
    - simpl in Hval. subst num.
      destruct He as (Hes & Hlead & Hval).
      destruct Hlead as [-> | (e & es' & -> & He)]; [reflexivity|].
      inversion Hes as [|? ? He' Hes']; subst.
      assert (1 <= e) by (unfold is_digit in He'; lia).
      pose proof (decimal_value_lower e es' H Hes').
      pose proof (pow10_pos (List.length es')). lia.
    - pose proof (Forall_inv Hds) as Hd'.
      pose proof (Forall_inv_tail Hds) as Hds'.
      assert (1 <= d) by (unfold is_digit in Hd'; lia).
      symmetry.
      apply (decimal_representation_length es num (List.length ds') He).
      rewrite <- Hval. split.
      + now apply decimal_value_lower.
      + apply (decimal_value_bound (d :: ds') Hds). }
  destruct Hd as (Hds & _ & Hvd). destruct He as (Hes & _ & Hve).
  apply decimal_value_inj; auto. congruence.
Qed.

(** Every non-negative integer has a decimal representation. *)
Lemma decimal_representation_exists (num : Z) :
  0 <= num -> exists ds, is_decimal_representation ds num.
Proof.
  intros Hnum. generalize Hnum. pattern num.
  apply Z_lt_induction; [|exact Hnum].
  clear. intros num IH Hnum.
  destruct (Z_lt_dec num 10) as [Hsmall|Hbig].
  - exists [num]. split; [|split].
    + repeat constructor; lia.
    + destruct (Z.eq_dec num 0) as [-> | Hnz]; [now left|].
      right. now exists num, [].
    + simpl. lia.
  - assert (Hq : 0 <= num / 10 < num) by (split; [apply Z.div_pos|apply Z.div_lt]; lia).
    destruct (IH (num / 10) Hq (proj1 Hq)) as (ds & Hds & Hlead & Hval).
    pose proof (Z.mod_pos_bound num 10 ltac:(lia)) as Hr.
    pose proof (Z.div_mod num 10 ltac:(lia)) as Hdm.
    exists (ds ++ [num mod 10]). split; [|split].
    + apply Forall_app. split; [exact Hds|]. repeat constructor; lia.
    + right. destruct Hlead as [-> | (d & ds' & -> & Hd)].
      * simpl in Hval. lia.
      * exists d, (ds' ++ [num mod 10]). now split.
    + rewrite decimal_value_snoc, Hval. lia.
Qed.

Lemma digit_sum_while_done (digit_sum n : Z) :
  n <= 0 -> digit_sum_while digit_sum n = digit_sum.
Proof.
  intros Hn. rewrite digit_sum_while_equation_1.
  destruct (Z_lt_dec 0 n); [lia|reflexivity].
Qed.

Lemma digit_sum_while_step (digit_sum n : Z) :
  0 < n ->
  digit_sum_while digit_sum n =
  digit_sum_while (digit_sum + n mod 10) (n / 10).
Proof.
  intros Hn. rewrite digit_sum_while_equation_1.
  destruct (Z_lt_dec 0 n); [reflexivity|lia].
Qed.

(** The loop adds up the digits of any digit list whose value is the
    number it starts from. *)
Lemma digit_sum_while_digits (ds : list Z) :
  Forall is_digit ds ->
  forall digit_sum,
    digit_sum_while digit_sum (decimal_value ds) = digit_sum + sum_of ds.
Proof.
  induction ds as [|d ds IH] using rev_ind; intros Hds digit_sum.
  - simpl. rewrite digit_sum_while_done; lia.
  - apply Forall_app in Hds. destruct Hds as [Hds Hd].
    inversion Hd as [|? ? Hd' _]; subst. unfold is_digit in Hd'.
    pose proof (decimal_value_bound ds Hds) as [Hv _].
    assert (Hsum : sum_of (ds ++ [d]) = sum_of ds + d).
    { unfold sum_of. rewrite fold_right_app. simpl.
      clear. induction ds as [|x ds IH]; simpl; lia. }
    rewrite decimal_value_snoc, Hsum.
    destruct (Z.eq_dec (10 * decimal_value ds + d) 0) as [Hz|Hnz].
    + rewrite Hz, digit_sum_while_done by lia.
      assert (Hv0 : decimal_value ds = 0) by lia.
      specialize (IH Hds 0). rewrite Hv0, digit_sum_while_done in IH by lia.
      lia.
    + rewrite digit_sum_while_step by lia.
      replace ((10 * decimal_value ds + d) mod 10) with d.
      2:{ apply (Z.mod_unique _ _ (decimal_value ds)); lia. }
      replace ((10 * decimal_value ds + d) / 10) with (decimal_value ds).
      2:{ apply (Z.div_unique _ _ _ d); lia. }
      rewrite IH by exact Hds. lia.
Qed.

(** On a non-negative number the loop computes the digit sum. *)
Lemma digit_sum_while_has_digit_sum (num s : Z) :
  0 <= num -> (has_digit_sum num s <-> digit_sum_while 0 num = s).
Proof.
  intros Hnum. split.
  - intros (ds & (Hds & _ & Hval) & Hs).
    rewrite <- Hval, digit_sum_while_digits by exact Hds. lia.
  - intros Hs. destruct (decimal_representation_exists num Hnum) as (ds & Hrep).
    exists ds. split; [exact Hrep|].
    destruct Hrep as (Hds & _ & Hval).
    rewrite <- Hval, digit_sum_while_digits in Hs by exact Hds. lia.
Qed.

End Decimal.

(* ===================================================================== *)
(** ** Loops as comprehensions *)
(* ===================================================================== *)

Section Loops.

Context {A B : Type}.

(** A loop that appends [f x] for every [x]. *)
Lemma fold_left_append_each (f : A -> B) (l : list A) (acc : list B) :
  fold_left (fun result x => result ++ [f x]) l acc = acc ++ map f l.
Proof.
  revert acc. induction l as [|x l IH]; intros acc; simpl.
  - now rewrite app_nil_r.
  - now rewrite IH, <- app_assoc.
Qed.

(** A loop that appends [x] when the test succeeds. *)
Lemma fold_left_append_if (p : A -> bool) (l : list A) (acc : list A) :
  fold_left (fun result x => if p x then result ++ [x] else result) l acc =
  acc ++ filter p l.
Proof.
  revert acc. induction l as [|x l IH]; intros acc; simpl.
  - now rewrite app_nil_r.
  - rewrite IH. destruct (p x); [|reflexivity].
    now rewrite <- app_assoc.
Qed.

End Loops.

Section NestedLoops.

Context {A B C : Type}.

(** Two nested loops, the inner one appending [g x y]. *)
Lemma fold_left_nested (g : A -> B -> C) (xs : list A) (ys : list B)
      (acc : list C) :
  fold_left
    (fun result x => fold_left (fun result y => result ++ [g x y]) ys result)
    xs acc =
  acc ++ flat_map (fun x => map (g x) ys) xs.
Proof.
  revert acc. induction xs as [|x xs IH]; intros acc; simpl.
  - now rewrite app_nil_r.
  - now rewrite IH, fold_left_append_each, <- app_assoc.
Qed.

End NestedLoops.

Section Lists.

Context {A : Type}.

Lemma keeps_filter (P : A -> Prop) (p : A -> bool) (l : list A) :
  (forall x, In x l -> (P x <-> p x = true)) ->
  keeps P l (filter p l).
Proof.
  induction l as [|x l IH]; intros H; simpl; [constructor|].
  assert (Hl : keeps P l (filter p l)).
  { apply IH. intros y Hy. apply H. now right. }
  destruct (p x) eqn:E.
  - apply keeps_yes; [|exact Hl]. apply H; [now left|exact E].
  - apply keeps_no; [|exact Hl]. intros HP.
    apply H in HP; [congruence|now left].
Qed.

Lemma filter_none (p : A -> bool) (l : list A) :
  (forall x, In x l -> p x = false) -> filter p l = [].
Proof.
  induction l as [|x l IH]; intros H; simpl; [reflexivity|].
  rewrite (H x) by now left. apply IH. intros y Hy. apply H. now right.
Qed.

Lemma StronglySorted_app (R : A -> A -> Prop) (l1 l2 : list A) :
  StronglySorted R l1 -> StronglySorted R l2 ->
  (forall x y, In x l1 -> In y l2 -> R x y) ->
  StronglySorted R (l1 ++ l2).
Proof.
  intros H1 H2 H. induction H1 as [|x l1 H1 IH Hx]; simpl; [exact H2|].
  constructor.
  - apply IH. intros a b Ha Hb. apply H; [now right|exact Hb].
  - apply Forall_app. split; [exact Hx|].
    apply Forall_forall. intros y Hy. apply H; [now left|exact Hy].
Qed.

End Lists.

Lemma in_range (start stop x : Z) :
  In x (range start stop) <-> start <= x < stop.
Proof.
  unfold range. rewrite in_map_iff. split.
  - intros (i & <- & Hi). apply in_seq in Hi. lia.
  - intros Hx. exists (Z.to_nat (x - start)). split; [lia|].
    apply in_seq. lia.
Qed.

Lemma range_from_0 (m : nat) : range 0 (Z.of_nat m) = map Z.of_nat (seq 0 m).
Proof.
  unfold range. rewrite Z.sub_0_r, Nat2Z.id. apply map_ext. intros i. lia.
Qed.

(* ===================================================================== *)
(** ** Zero-free n-digit numbers *)
(* ===================================================================== *)

Section NoZeros.

Lemma zero_free_is_digit (ds : list Z) : zero_free ds -> Forall is_digit ds.
Proof.
  apply Forall_impl. unfold is_digit. intros d Hd. lia.
Qed.

Lemma zero_free_no_zero (ds : list Z) :
  zero_free ds -> Forall (fun d => d <> 0) ds.
Proof. apply Forall_impl. intros d Hd. lia. Qed.

Lemma zero_free_sum (ds : list Z) :
  zero_free ds ->
  Z.of_nat (List.length ds) <= sum_of ds <= 9 * Z.of_nat (List.length ds).
Proof.
  induction 1 as [|d ds Hd Hds IH]; [simpl; lia|].
  cbn [sum_of fold_right List.length] in *. fold (sum_of ds). lia.
Qed.

Lemma prepend_digits_flat_map (n : Z) (prev_numbers : list Z) :
  prepend_digits n prev_numbers =
  flat_map (fun digit => map (fun prev_num => digit * 10 ^ (n - 1) + prev_num)
                             prev_numbers)
           (range 1 10).
Proof.
  unfold prepend_digits. cbv zeta.
  apply (fold_left_nested (fun digit prev_num => digit * 10 ^ (n - 1) + prev_num)).
Qed.

Lemma in_prepend_digits (n num : Z) (prev_numbers : list Z) :
  In num (prepend_digits n prev_numbers) <->
  exists digit prev_num,
    1 <= digit <= 9 /\ In prev_num prev_numbers /\
    num = digit * 10 ^ (n - 1) + prev_num.
Proof.
  rewrite prepend_digits_flat_map, in_flat_map. split.
  - intros (digit & Hd & Hnum). apply in_range in Hd.
    apply in_map_iff in Hnum. destruct Hnum as (p & <- & Hp).
    exists digit, p. repeat split; auto; lia.
  - intros (digit & p & Hd & Hp & ->). exists digit. split.
    + apply in_range. lia.
    + apply in_map_iff. now exists p.
Qed.

Lemma length_prepend_digits (n : Z) (prev_numbers : list Z) :
  List.length (prepend_digits n prev_numbers) =
  (9 * List.length prev_numbers)%nat.
Proof.
  rewrite prepend_digits_flat_map.
  change (range 1 10) with [1; 2; 3; 4; 5; 6; 7; 8; 9].
  cbn [flat_map]. rewrite !length_app, !length_map. simpl. lia.
Qed.

Lemma StronglySorted_shift (c : Z) (l : list Z) :
  StronglySorted Z.lt l -> StronglySorted Z.lt (map (fun p => c + p) l).
Proof.
  induction 1 as [|x l Hl IH Hx]; simpl; constructor; [exact IH|].
  apply Forall_map. revert Hx. apply Forall_impl. intros y Hy. lia.
Qed.

(** Blocks of numbers below [base], one block per leading digit, in
    ascending order of the digit, form an increasing sequence. *)
Lemma StronglySorted_blocks (base : Z) (digits prev_numbers : list Z) :
  StronglySorted Z.lt digits ->
  StronglySorted Z.lt prev_numbers ->
  Forall (fun p => 0 <= p < base) prev_numbers ->
  StronglySorted Z.lt
    (flat_map (fun digit => map (fun p => digit * base + p) prev_numbers)
              digits).
Proof.
  intros Hd Hp Hb. induction Hd as [|d digits Hd IH Hlt]; simpl.
  - constructor.
  - apply StronglySorted_app.
    + now apply StronglySorted_shift.
    + exact IH.
    + intros x y Hx Hy.
      apply in_map_iff in Hx. destruct Hx as (p & <- & Hp1).
      apply in_flat_map in Hy. destruct Hy as (d' & Hd' & Hy).
      apply in_map_iff in Hy. destruct Hy as (q & <- & Hq).
      rewrite Forall_forall in Hlt, Hb.
      pose proof (Hlt d' Hd'). pose proof (Hb p Hp1). pose proof (Hb q Hq).
      nia.
Qed.

Lemma StronglySorted_range_1_10 : StronglySorted Z.lt (range 1 10).
Proof.
  change (range 1 10) with [1; 2; 3; 4; 5; 6; 7; 8; 9].
  repeat (constructor; [|repeat (constructor; [lia|]); constructor]).
  constructor.
Qed.

Lemma generate_n_digit_numbers_step (n : nat) :
  (1 <= n)%nat ->
  generate_n_digit_numbers_no_zeros_recursive (S n) =
  prepend_digits (Z.of_nat (S n))
                 (generate_n_digit_numbers_no_zeros_recursive n).
Proof. destruct n as [|n]; [lia|reflexivity]. Qed.

(** Every generated number is the value of [n] digits between 1 and 9. *)
Lemma generate_n_digit_numbers_digits (n : nat) (num : Z) :
  In num (generate_n_digit_numbers_no_zeros_recursive n) ->
  exists ds, List.length ds = n /\ zero_free ds /\ decimal_value ds = num.
Proof.
  revert num. induction n as [|n IH]; intros num Hin; [destruct Hin|].
  destruct n as [|n].
  - exists [num]. split; [reflexivity|]. split.
    + constructor; [|constructor].
      simpl in Hin. lia.
    + simpl. lia.
  - rewrite generate_n_digit_numbers_step in Hin by lia.
    apply in_prepend_digits in Hin.
    destruct Hin as (digit & p & Hd & Hp & ->).
    destruct (IH p Hp) as (ds & Hlen & Hds & Hval).
    exists (digit :: ds). split; [simpl; congruence|]. split.
    + now constructor.
    + cbn [decimal_value]. rewrite Hlen, Hval.
      now replace (Z.of_nat (S (S n)) - 1) with (Z.of_nat (S n)) by lia.
Qed.

Lemma zero_free_value_range (n : nat) (ds : list Z) :
  List.length ds = S n -> zero_free ds ->
  10 ^ Z.of_nat n <= decimal_value ds < 10 ^ Z.of_nat (S n).
Proof.
  intros Hlen Hds. destruct ds as [|d ds]; [discriminate|].
  injection Hlen as Hlen. subst n.
  pose proof (zero_free_is_digit _ Hds) as Hdig.
  split.
  - apply decimal_value_lower.
    + apply Forall_inv in Hds. lia.
    + now apply Forall_inv_tail in Hdig.
  - apply (decimal_value_bound (d :: ds) Hdig).
Qed.

Lemma zero_free_representation (ds : list Z) (n : nat) :
  List.length ds = S n -> zero_free ds ->
  is_decimal_representation ds (decimal_value ds).
Proof.
  intros Hlen Hds. split; [now apply zero_free_is_digit|].
  split; [|reflexivity].
  right. destruct ds as [|d ds]; [discriminate|].
  exists d, ds. split; [reflexivity|]. apply Forall_inv in Hds. lia.
Qed.

Lemma generate_n_digit_numbers_range (n : nat) (num : Z) :
  In num (generate_n_digit_numbers_no_zeros_recursive (S n)) ->
  10 ^ Z.of_nat n <= num < 10 ^ Z.of_nat (S n).
Proof.
  intros Hin.
  destruct (generate_n_digit_numbers_digits _ _ Hin) as (ds & Hlen & Hds & <-).
  now apply zero_free_value_range.
Qed.

Lemma length_generate_n_digit_numbers (n : nat) :
  List.length (generate_n_digit_numbers_no_zeros_recursive (S n)) =
  (9 ^ S n)%nat.
Proof.
  induction n as [|n IH]; [reflexivity|].
  rewrite generate_n_digit_numbers_step, length_prepend_digits, IH by lia.
  rewrite (Nat.pow_succ_r' 9 (S n)). reflexivity.
Qed.

Lemma StronglySorted_generate_n_digit_numbers (n : nat) :
  StronglySorted Z.lt (generate_n_digit_numbers_no_zeros_recursive n).
Proof.
  induction n as [|n IH]; [constructor|].
  destruct n as [|n].
  - change (StronglySorted Z.lt (range 1 10)).
    apply StronglySorted_range_1_10.
  - rewrite generate_n_digit_numbers_step, prepend_digits_flat_map by lia.
    apply StronglySorted_blocks.
    + apply StronglySorted_range_1_10.
    + exact IH.
    + apply Forall_forall. intros p Hp.
      apply generate_n_digit_numbers_range in Hp.
      replace (Z.of_nat (S (S n)) - 1) with (Z.of_nat (S n)) by lia.
      pose proof (pow10_pos n). lia.
Qed.

(** The digit sum computed for a generated number lies between [n]
    and [9 * n]. *)
Lemma generate_n_digit_numbers_digit_sum (n : nat) (num : Z) :
  In num (generate_n_digit_numbers_no_zeros_recursive n) ->
  Z.of_nat n <= digit_sum_while 0 num <= 9 * Z.of_nat n.
Proof.
  intros Hin.
  destruct (generate_n_digit_numbers_digits _ _ Hin) as (ds & Hlen & Hds & <-).
  rewrite digit_sum_while_digits by now apply zero_free_is_digit.
  pose proof (zero_free_sum ds Hds). rewrite Hlen in *. lia.
Qed.

Lemma filter_numbers_by_digit_sum_filter (numbers : list Z) (k : Z) :
  filter_numbers_by_digit_sum numbers k =
  filter (fun num => digit_sum_while 0 num =? k) numbers.
Proof.
  unfold filter_numbers_by_digit_sum. cbv zeta.
  apply (fold_left_append_if (fun num => digit_sum_while 0 num =? k)).
Qed.

End NoZeros.

(** C3. The sequence returned by
    [generate_n_digit_numbers_no_zeros_recursive(n)] is strictly
    increasing: each element is less than the next one, and less than
    every later one.  The generator contains no sorting step; the order
    comes from the two nested loops alone.  (For [n = 0] the sequence
    is empty.) *)
Theorem generate_n_digit_numbers_strictly_increasing (n : nat) :
  Sorted Z.lt (generate_n_digit_numbers_no_zeros_recursive n) /\
  StronglySorted Z.lt (generate_n_digit_numbers_no_zeros_recursive n).
Proof.
  split; [apply StronglySorted_Sorted|];
    apply StronglySorted_generate_n_digit_numbers.
Qed.

(** C4. For [n >= 1], [generate_n_digit_numbers_no_zeros_recursive(n)]
    has [9^n] elements, each element [num] satisfies
    [10^(n-1) <= num < 10^n], and its decimal representation (which is
    unique) has [n] digits, none of them 0; for [n = 0] the result is
    empty and for [n = 1] it is [[1, ..., 9]]. *)
Theorem generate_n_digit_numbers_no_zeros (n : nat) (Hn : (1 <= n)%nat) :
  List.length (generate_n_digit_numbers_no_zeros_recursive n) = (9 ^ n)%nat /\
  (forall num,
      In num (generate_n_digit_numbers_no_zeros_recursive n) ->
      10 ^ (Z.of_nat n - 1) <= num < 10 ^ Z.of_nat n /\
      exists ds,
        is_decimal_representation ds num /\
        (forall ds', is_decimal_representation ds' num -> ds' = ds) /\
        List.length ds = n /\
        Forall (fun d => d <> 0) ds) /\
  generate_n_digit_numbers_no_zeros_recursive 0 = [] /\
  generate_n_digit_numbers_no_zeros_recursive 1 = [1; 2; 3; 4; 5; 6; 7; 8; 9].
Proof.
  destruct n as [|n]; [lia|].
  split; [apply length_generate_n_digit_numbers|].
  split; [|split; reflexivity].
  intros num Hin. split.
  - replace (Z.of_nat (S n) - 1) with (Z.of_nat n) by lia.
    now apply generate_n_digit_numbers_range.
  - destruct (generate_n_digit_numbers_digits _ _ Hin) as (ds & Hlen & Hds & <-).
    pose proof (zero_free_representation ds n Hlen Hds) as Hrep.
    exists ds. split; [exact Hrep|]. split; [|split].
    + intros ds' Hrep'. exact (decimal_representation_unique _ _ _ Hrep' Hrep).
    + exact Hlen.
    + now apply zero_free_no_zero.
Qed.

Lemma generate_n_digit_numbers_no_zeros_witness :
  (1 <= 2)%nat /\
  List.length (generate_n_digit_numbers_no_zeros_recursive 2) = (9 ^ 2)%nat.
Proof.
  split; [lia|].
  apply (generate_n_digit_numbers_no_zeros 2). lia.
Defined.

(** C5. For a sequence [numbers] of non-negative integers and any [k],
    [filter_numbers_by_digit_sum(numbers, k)] is [numbers] with exactly
    the elements whose base-10 digit sum is [k] kept, in their original
    order; the digit sum of 0 is 0, so 0 is kept exactly when
    [k == 0]. *)
Theorem filter_numbers_by_digit_sum_keeps (numbers : list Z) (k : Z)
        (Hnumbers : Forall (fun num => 0 <= num) numbers) :
  keeps (fun num => has_digit_sum num k)
        numbers (filter_numbers_by_digit_sum numbers k) /\
  has_digit_sum 0 0 /\
  (In 0 (filter_numbers_by_digit_sum numbers k) <-> In 0 numbers /\ k = 0).
Proof.
  rewrite filter_numbers_by_digit_sum_filter.
  split; [|split].
  - apply keeps_filter. intros num Hin.
    rewrite Forall_forall in Hnumbers.
    rewrite digit_sum_while_has_digit_sum by auto.
    symmetry. apply Z.eqb_eq.
  - apply digit_sum_while_has_digit_sum; [lia|].
    apply digit_sum_while_done. lia.
  - rewrite filter_In, Z.eqb_eq, digit_sum_while_done by lia.
    split; intros [H1 H2]; split; auto.
Qed.

Lemma filter_numbers_by_digit_sum_keeps_witness :
  Forall (fun num => 0 <= num) [18; 20; 0; 27; 9] /\
  keeps (fun num => has_digit_sum num 9)
        [18; 20; 0; 27; 9] (filter_numbers_by_digit_sum [18; 20; 0; 27; 9] 9).
Proof.
  assert (H : Forall (fun num => 0 <= num) [18; 20; 0; 27; 9])
    by (repeat constructor; lia).
  split; [exact H|].
  apply (filter_numbers_by_digit_sum_keeps [18; 20; 0; 27; 9] 9 H).
Defined.

(** C6. [generate_n_digit_numbers_summing_to_k(n, k)] returns the empty
    sequence when [n >= 1] and [k == 0], when [k > 9 * n], and when
    [n == 0]; the function returns a list in every case. *)
Theorem generate_n_digit_numbers_summing_to_k_empty (n : nat) (k : Z)
        (H : ((1 <= n)%nat /\ k = 0) \/ k > 9 * Z.of_nat n \/ n = 0%nat) :
  generate_n_digit_numbers_summing_to_k n k = [].
Proof.
  unfold generate_n_digit_numbers_summing_to_k. cbv zeta.
  rewrite filter_numbers_by_digit_sum_filter.
  apply filter_none. intros num Hin.
  pose proof (generate_n_digit_numbers_digit_sum n num Hin) as Hsum.
  apply Z.eqb_neq.
  destruct H as [[Hn ->] | [Hk | ->]]; [lia | lia | destruct Hin].
Qed.

Lemma generate_n_digit_numbers_summing_to_k_empty_witness :
  (((1 <= 2)%nat /\ 19 = 0) \/ 19 > 9 * Z.of_nat 2 \/ 2%nat = 0%nat) /\
  generate_n_digit_numbers_summing_to_k 2 19 = [].
Proof.
  assert (H : ((1 <= 2)%nat /\ 19 = 0) \/ 19 > 9 * Z.of_nat 2 \/ 2%nat = 0%nat)
    by (right; left; reflexivity).
  split; [exact H|].
  apply (generate_n_digit_numbers_summing_to_k_empty 2 19 H).
Defined.

(* ===================================================================== *)
(** ** Slices and indexing at non-negative positions *)
(* ===================================================================== *)

Section Slices.

Lemma slice_bound_nat (word : string) (i : nat) :
  slice_bound word (Z.of_nat i) = Nat.min i (String.length word).
Proof.
  unfold slice_bound, from_end, len.
  destruct (Z.ltb_spec (Z.of_nat i) 0); lia.
Qed.

Lemma chars_slice_to (word : string) (i : nat) :
  chars (slice_to word (Z.of_nat i)) = firstn i (chars word).
Proof.
  unfold slice_to. rewrite chars_substring, slice_bound_nat. simpl skipn.
  rewrite <- chars_length.
  destruct (Nat.le_ge_cases i (List.length (chars word))) as [H|H].
  - now rewrite Nat.min_l.
  - rewrite Nat.min_r by exact H. now rewrite firstn_all, firstn_all2.
Qed.

Lemma chars_slice_from (word : string) (i : nat) :
  chars (slice_from word (Z.of_nat i)) = skipn i (chars word).
Proof.
  unfold slice_from. cbv zeta.
  rewrite chars_substring, slice_bound_nat, <- chars_length.
  set (l := chars word).
  destruct (Nat.le_ge_cases i (List.length l)) as [H|H].
  - rewrite Nat.min_l by exact H.
    apply firstn_all2. rewrite length_skipn. lia.
  - rewrite Nat.min_r by exact H.
    now rewrite skipn_all, (skipn_all2 l H), firstn_nil.
Qed.

Lemma item_nat (word : string) (i : nat) :
  item word (Z.of_nat i) = nth_error (chars word) i.
Proof.
  unfold item, from_end, len. cbv zeta.
  destruct (Z.ltb_spec (Z.of_nat i) 0) as [H|_]; [lia|].
  destruct (Z.leb_spec 0 (Z.of_nat i)) as [_|H]; [|lia].
  destruct (Z.ltb_spec (Z.of_nat i) (Z.of_nat (String.length word)))
    as [H|H]; simpl.
  - now rewrite Nat2Z.id, chars_get.
  - symmetry. apply nth_error_None. rewrite chars_length. lia.
Qed.

Lemma chars_remove_at (word : string) (i : nat) :
  chars (remove_at word (Z.of_nat i)) =
  firstn i (chars word) ++ skipn (S i) (chars word).
Proof.
  unfold remove_at.
  replace (Z.of_nat i + 1) with (Z.of_nat (S i)) by lia.
  now rewrite chars_append, chars_slice_to, chars_slice_from.
Qed.

End Slices.

(* ===================================================================== *)
(** ** Interpolation *)
(* ===================================================================== *)

Section Interpolate.

Lemma interpolate_positions (ch : ascii) (word : string) :
  interpolate ch word =
  map (fun i => string_of_list_ascii (insert_at i ch (chars word)))
      (seq 0 (S (String.length word))).
Proof.
  unfold interpolate, len.
  replace (Z.of_nat (String.length word) + 1)
    with (Z.of_nat (S (String.length word))) by lia.
  rewrite range_from_0, map_map. apply map_ext. intros i.
  apply chars_inj.
  rewrite chars_of_list, chars_append. simpl.
  fold (chars (slice_from word (Z.of_nat i))).
  now rewrite chars_slice_to, chars_slice_from.
Qed.

Lemma length_interpolate (ch : ascii) (word : string) :
  List.length (interpolate ch word) = S (String.length word).
Proof.
  now rewrite interpolate_positions, length_map, length_seq.
Qed.

Lemma nth_error_interpolate (ch : ascii) (word : string) (i : nat) :
  (i <= String.length word)%nat ->
  nth_error (interpolate ch word) i =
  Some (string_of_list_ascii (insert_at i ch (chars word))).
Proof.
  intros Hi. rewrite interpolate_positions.
  erewrite map_nth_error; [reflexivity|].
  rewrite nth_error_seq.
  destruct (Nat.ltb_spec i (S (String.length word))); [reflexivity|lia].
Qed.

Lemma in_interpolate (ch : ascii) (word s : string) :
  In s (interpolate ch word) <->
  exists i, (i <= String.length word)%nat /\
            chars s = insert_at i ch (chars word).
Proof.
  rewrite interpolate_positions, in_map_iff. split.
  - intros (i & <- & Hi). apply in_seq in Hi.
    exists i. split; [lia|]. apply chars_of_list.
  - intros (i & Hi & Hs). exists i. split.
    + apply chars_inj. now rewrite chars_of_list.
    + apply in_seq. lia.
Qed.

End Interpolate.

Section InsertAt.

Context {A : Type}.

Lemma length_insert_at (i : nat) (x : A) (l : list A) :
  List.length (insert_at i x l) = S (List.length l).
Proof.
  unfold insert_at. rewrite length_app. simpl.
  rewrite length_firstn, length_skipn. lia.
Qed.

Lemma insert_at_Permutation (i : nat) (x : A) (l : list A) :
  Permutation (insert_at i x l) (x :: l).
Proof.
  unfold insert_at. symmetry. apply Permutation_cons_app.
  now rewrite firstn_skipn.
Qed.

Lemma nth_error_insert_at_before (i j : nat) (x : A) (l : list A) :
  (i <= List.length l)%nat -> (j < i)%nat ->
  nth_error (insert_at i x l) j = nth_error l j.
Proof.
  intros Hi Hj. unfold insert_at.
  rewrite nth_error_app1 by (rewrite length_firstn; lia).
  rewrite nth_error_firstn.
  destruct (Nat.ltb_spec j i); [reflexivity|lia].
Qed.

Lemma nth_error_insert_at_here (i : nat) (x : A) (l : list A) :
  (i <= List.length l)%nat -> nth_error (insert_at i x l) i = Some x.
Proof.
  intros Hi. unfold insert_at.
  rewrite nth_error_app2 by (rewrite length_firstn; lia).
  rewrite length_firstn, Nat.min_l, Nat.sub_diag by exact Hi. reflexivity.
Qed.

Lemma nth_error_insert_at_after (i j : nat) (x : A) (l : list A) :
  (i <= List.length l)%nat -> (i <= j)%nat ->
  nth_error (insert_at i x l) (S j) = nth_error l j.
Proof.
  intros Hi Hj. unfold insert_at.
  rewrite nth_error_app2 by (rewrite length_firstn; lia).
  rewrite length_firstn, Nat.min_l by exact Hi.
  replace (S j - i)%nat with (S (j - i)) by lia. simpl.
  rewrite nth_error_skipn. f_equal. lia.
Qed.

(** Inserting an element that does not occur in either list determines
    both the position and the list. *)
Lemma insert_at_inj (x : A) (i j : nat) (l1 l2 : list A) :
  ~ In x l1 -> ~ In x l2 ->
  (i <= List.length l1)%nat -> (j <= List.length l2)%nat ->
  insert_at i x l1 = insert_at j x l2 -> i = j /\ l1 = l2.
Proof.
  revert j l1 l2. induction i as [|i IH]; intros j l1 l2 H1 H2 Hi Hj E.
  - destruct j as [|j]; [now injection E|].
    destruct l2 as [|y l2]; [simpl in Hj; lia|].
    injection E as E _. subst y. exfalso. apply H2. now left.
  - destruct l1 as [|a l1]; [simpl in Hi; lia|].
    destruct j as [|j].
    + injection E as E _. subst a. exfalso. apply H1. now left.
    + destruct l2 as [|b l2]; [simpl in Hj; lia|].
      injection E as E1 E2. subst b.
      destruct (IH j l1 l2) as [-> ->]; auto.
      * intros H. apply H1. now right.
      * intros H. apply H2. now right.
      * simpl in Hi. lia.
      * simpl in Hj. lia.
Qed.

Lemma insert_at_split (x : A) (a b : list A) :
  insert_at (List.length a) x (a ++ b) = a ++ x :: b.
Proof.
  unfold insert_at.
  rewrite firstn_app, firstn_all, Nat.sub_diag, skipn_app, skipn_all,
    Nat.sub_diag.
  simpl. now rewrite app_nil_r.
Qed.

End InsertAt.

(* ===================================================================== *)
(** ** Permutations *)
(* ===================================================================== *)

Section FlatMap.

Context {A B : Type}.

Lemma length_flat_map_const (f : A -> list B) (k : nat) (l : list A) :
  (forall x, In x l -> List.length (f x) = k) ->
  List.length (flat_map f l) = (List.length l * k)%nat.
Proof.
  induction l as [|x l IH]; intros H; simpl; [reflexivity|].
  rewrite length_app, (H x) by now left.
  rewrite IH; [reflexivity|]. intros y Hy. apply H. now right.
Qed.

Lemma NoDup_flat_map (f : A -> list B) (l : list A) :
  NoDup l ->
  (forall x, In x l -> NoDup (f x)) ->
  (forall x y z, In x l -> In y l -> In z (f x) -> In z (f y) -> x = y) ->
  NoDup (flat_map f l).
Proof.
  induction 1 as [|x l Hx Hl IH]; intros Hf Hdisj; simpl; [constructor|].
  apply NoDup_app.
  - apply Hf. now left.
  - apply IH.
    + intros y Hy. apply Hf. now right.
    + intros a b z Ha Hb. apply Hdisj; now right.
  - intros z Hz Hz'. apply in_flat_map in Hz'. destruct Hz' as (y & Hy & Hzy).
    apply Hx. rewrite (Hdisj x y z); auto; [now left|now right].
Qed.

Lemma NoDup_map_inj_in (f : A -> B) (l : list A) :
  (forall x y, In x l -> In y l -> f x = f y -> x = y) ->
  NoDup l -> NoDup (map f l).
Proof.
  intros Hinj Hl. induction Hl as [|x l Hx Hl IH]; simpl; constructor.
  - intros Hin. apply in_map_iff in Hin. destruct Hin as (y & Hy & Hyl).
    apply Hx. rewrite (Hinj x y); auto; [now left|now right].
  - apply IH. intros a b Ha Hb. apply Hinj; now right.
Qed.

End FlatMap.

Section Permutations.

Lemma generate_permutations_S (word : string) (pos : nat) :
  generate_permutations word (S pos) =
  match generate_permutations (remove_at word (Z.of_nat (S pos))) pos with
  | None => None
  | Some perms =>
      match item word (Z.of_nat (S pos)) with
      | None => None
      | Some ch => Some (interpolate_all ch perms)
      end
  end.
Proof. reflexivity. Qed.

(** With [pos] the last index, the step removes the last character. *)
Lemma remove_last (word : string) (pos : nat) :
  String.length word = S (S pos) ->
  exists ch,
    item word (Z.of_nat (S pos)) = Some ch /\
    chars word = chars (remove_at word (Z.of_nat (S pos))) ++ [ch] /\
    String.length (remove_at word (Z.of_nat (S pos))) = S pos.
Proof.
  intros Hlen. rewrite <- chars_length in Hlen.
  rewrite <- (chars_length (remove_at _ _)), item_nat, chars_remove_at.
  set (l := chars word) in *.
  destruct (nth_error l (S pos)) as [ch|] eqn:E.
  2:{ apply nth_error_None in E. lia. }
  exists ch. split; [reflexivity|].
  apply nth_error_split in E. destruct E as (l1 & l2 & El & Hl1).
  assert (Hl2 : l2 = []).
  { rewrite El, length_app in Hlen. simpl in Hlen.
    destruct l2; [reflexivity|simpl in Hlen; lia]. }
  subst l2. rewrite El, <- Hl1.
  rewrite firstn_app, firstn_all, Nat.sub_diag. simpl firstn.
  rewrite skipn_all2 by (rewrite length_app; simpl; lia).
  rewrite !app_nil_r. split; [reflexivity|lia].
Qed.

Lemma NoDup_interpolate (ch : ascii) (word : string) :
  ~ In ch (chars word) -> NoDup (interpolate ch word).
Proof.
  intros Hch. rewrite interpolate_positions.
  apply NoDup_map_inj_in; [|apply seq_NoDup].
  intros i j Hi Hj E. apply in_seq in Hi, Hj.
  apply (f_equal chars) in E. rewrite !chars_of_list in E.
  apply insert_at_inj in E; [tauto|auto|auto| |]; rewrite chars_length; lia.
Qed.

Lemma interpolate_disjoint (ch : ascii) (w1 w2 s : string) :
  ~ In ch (chars w1) -> ~ In ch (chars w2) ->
  In s (interpolate ch w1) -> In s (interpolate ch w2) -> w1 = w2.
Proof.
  intros H1 H2 Hs1 Hs2.
  apply in_interpolate in Hs1, Hs2.
  destruct Hs1 as (i & Hi & E1). destruct Hs2 as (j & Hj & E2).
  rewrite E1 in E2.
  apply insert_at_inj in E2; auto; try (rewrite chars_length; lia).
  apply chars_inj. tauto.
Qed.

(** What [generate_permutations] returns when [pos] is the last index
    of [word]. *)
Lemma generate_permutations_last_index (pos : nat) :
  forall word,
    String.length word = S pos ->
    exists perms,
      generate_permutations word pos = Some perms /\
      List.length perms = fact (S pos) /\
      (forall s, In s perms -> Permutation (chars s) (chars word)) /\
      (NoDup (chars word) ->
       NoDup perms /\
       forall s, Permutation (chars s) (chars word) -> In s perms).
Proof.
  induction pos as [|pos IH]; intros word Hlen.
  - exists [word]. repeat split.
    + intros s [<-|[]]. reflexivity.
    + repeat constructor. intros [].
    + intros s Hs. left. apply chars_inj.
      rewrite <- chars_length in Hlen.
      destruct (chars word) as [|c [|d l]]; try discriminate.
      symmetry. apply Permutation_length_1_inv. now symmetry.
  - destruct (remove_last word pos Hlen) as (ch & Hitem & Hchars & Hlen').
    rewrite generate_permutations_S, Hitem.
    set (curr_word := remove_at word (Z.of_nat (S pos))) in *.
    destruct (IH curr_word Hlen')
      as (perms & -> & Hcount & Hsound & Hcomplete).
    exists (interpolate_all ch perms). split; [reflexivity|].
    assert (Hword : Permutation (ch :: chars curr_word) (chars word)).
    { rewrite Hchars. apply Permutation_cons_append. }
    split; [|split].
    + unfold interpolate_all.
      rewrite (length_flat_map_const _ (S (S pos))).
      * rewrite Hcount.
        change (fact (S (S pos))) with (S (S pos) * fact (S pos))%nat.
        apply Nat.mul_comm.
      * intros perm Hperm. rewrite length_interpolate. f_equal.
        rewrite <- Hlen', <- !chars_length.
        apply Permutation_length. now apply Hsound.
    + intros s Hs. apply in_flat_map in Hs. destruct Hs as (perm & Hperm & Hs).
      apply in_interpolate in Hs. destruct Hs as (i & _ & ->).
      rewrite insert_at_Permutation, <- Hword.
      apply perm_skip. now apply Hsound.
    + intros Hnd. rewrite Hchars in Hnd.
      apply NoDup_remove in Hnd. rewrite app_nil_r in Hnd.
      destruct Hnd as [Hnd Hch].
      destruct (Hcomplete Hnd) as [Hperms Hall].
      assert (Hfresh : forall perm, In perm perms -> ~ In ch (chars perm)).
      { intros perm Hperm Hin. apply Hch.
        apply (Permutation_in _ (Hsound perm Hperm) Hin). }
      split.
      * apply NoDup_flat_map; [exact Hperms| |].
        -- intros perm Hperm. apply NoDup_interpolate. now apply Hfresh.
        -- intros x y z Hx Hy. apply interpolate_disjoint; now apply Hfresh.
      * intros s Hs.
        assert (Hin : In ch (chars s)).
        { apply (Permutation_in _ (Permutation_sym Hs)).
          rewrite Hchars. apply in_or_app. right. now left. }
        apply in_split in Hin. destruct Hin as (a & b & Es).
        rewrite Es, Hchars in Hs. apply Permutation_app_inv in Hs.
        rewrite app_nil_r in Hs.
        apply in_flat_map. exists (string_of_list_ascii (a ++ b)). split.
        -- apply Hall. now rewrite chars_of_list.
        -- apply in_interpolate. exists (List.length a). split.
           ++ rewrite <- chars_length, chars_of_list, length_app. lia.
           ++ now rewrite chars_of_list, insert_at_split.
Qed.

End Permutations.

(** C7. [interpolate(ch, word)] returns [len(word) + 1] words; the word
    at position [i] is [word] with [ch] inserted immediately before index
    [i]: it is one character longer, has [ch] at index [i], agrees with
    [word] before [i] and with [word] shifted by one from [i] on; and
    [interpolate("x", "ab") == ["xab", "axb", "abx"]]. *)
Theorem interpolate_inserts_at_every_position (ch : ascii) (word : string) :
  List.length (interpolate ch word) = S (String.length word) /\
  (forall i, (i <= String.length word)%nat ->
     exists r,
       nth_error (interpolate ch word) i = Some r /\
       chars r = insert_at i ch (chars word) /\
       String.length r = S (String.length word) /\
       get i r = Some ch /\
       (forall j, (j < i)%nat -> get j r = get j word) /\
       (forall j, (i <= j)%nat -> get (S j) r = get j word)) /\
  interpolate "x" "ab" = ["xab"; "axb"; "abx"].
Proof.
  split; [apply length_interpolate|]. split; [|reflexivity].
  intros i Hi.
  exists (string_of_list_ascii (insert_at i ch (chars word))).
  assert (Hi' : (i <= List.length (chars word))%nat)
    by now rewrite chars_length.
  split; [now apply nth_error_interpolate|].
  split; [apply chars_of_list|].
  split; [|split; [|split]].
  - now rewrite <- chars_length, chars_of_list, length_insert_at, chars_length.
  - rewrite chars_get, chars_of_list. now apply nth_error_insert_at_here.
  - intros j Hj. rewrite !chars_get, chars_of_list.
    now apply nth_error_insert_at_before.
  - intros j Hj. rewrite !chars_get, chars_of_list.
    now apply nth_error_insert_at_after.
Qed.

(** C8. For a word of length [L >= 1], [generate_permutations(word, L-1)]
    returns [L!] results; when the symbols of the word are pairwise
    distinct the results are pairwise distinct and are exactly the
    orderings of those symbols; [generate_permutations("aa", 1)] is
    [["aa", "aa"]] and [generate_permutations("a", 0)] is [["a"]]. *)
Theorem generate_permutations_all_orderings (word : string) (L : nat)
        (HL : String.length word = L) (Hne : (1 <= L)%nat) :
  (exists perms,
      generate_permutations word (L - 1) = Some perms /\
      List.length perms = fact L /\
      (NoDup (chars word) ->
       NoDup perms /\
       forall s, In s perms <-> Permutation (chars s) (chars word))) /\
  generate_permutations "aa" 1 = Some ["aa"; "aa"] /\
  generate_permutations "a" 0 = Some ["a"].
Proof.
  split; [|split; reflexivity].
  destruct L as [|pos]; [lia|].
  replace (S pos - 1)%nat with pos by lia.
  destruct (generate_permutations_last_index pos word HL)
    as (perms & Hgen & Hcount & Hsound & Hcomplete).
  exists perms. split; [exact Hgen|]. split; [exact Hcount|].
  intros Hnd. destruct (Hcomplete Hnd) as [Hperms Hall].
  split; [exact Hperms|].
  intros s. split; [apply Hsound|apply Hall].
Qed.

Lemma generate_permutations_all_orderings_witness :
  String.length "abc" = 3%nat /\ (1 <= 3)%nat /\
  exists perms,
    generate_permutations "abc" (3 - 1) = Some perms /\
    List.length perms = fact 3 /\
    (NoDup (chars "abc") ->
     NoDup perms /\
     forall s, In s perms <-> Permutation (chars s) (chars "abc")).
Proof.
  split; [reflexivity|]. split; [lia|].
  apply (generate_permutations_all_orderings "abc" 3); [reflexivity|lia].
Defined.

(** C10. For a word of length [L >= 1], with or without repeated symbols,
    every string returned by [generate_permutations(word, L-1)] has the
    length of [word] and the same characters with the same numbers of
    occurrences: it is a rearrangement of [word]. *)
Theorem generate_permutations_rearrangements (word : string) (L : nat)
        (HL : String.length word = L) (Hne : (1 <= L)%nat) :
  exists perms,
    generate_permutations word (L - 1) = Some perms /\
    forall s,
      In s perms ->
      String.length s = String.length word /\
      Permutation (chars s) (chars word) /\
      forall c, count_occ ascii_dec (chars s) c =
                count_occ ascii_dec (chars word) c.
Proof.
  destruct L as [|pos]; [lia|].
  replace (S pos - 1)%nat with pos by lia.
  destruct (generate_permutations_last_index pos word HL)
    as (perms & Hgen & _ & Hsound & _).
  exists perms. split; [exact Hgen|].
  intros s Hs. pose proof (Hsound s Hs) as Hperm.
  split; [|split].
  - rewrite <- !chars_length. now apply Permutation_length.
  - exact Hperm.
  - intros c. now apply Permutation_count_occ.
Qed.

Lemma generate_permutations_rearrangements_witness :
  String.length "aba" = 3%nat /\ (1 <= 3)%nat /\
  exists perms,
    generate_permutations "aba" (3 - 1) = Some perms /\
    forall s,
      In s perms ->
      String.length s = String.length "aba" /\
      Permutation (chars s) (chars "aba") /\
      forall c, count_occ ascii_dec (chars s) c =
                count_occ ascii_dec (chars "aba") c.
Proof.
  split; [reflexivity|]. split; [lia|].
  apply (generate_permutations_rearrangements "aba" 3); [reflexivity|lia].
Defined.

(* ===================================================================== *)
(** ** Recursion depth *)
(* ===================================================================== *)

Section Depth.

Lemma generate_binary_nums_within_eq (depth : nat) (n : Z) :
  generate_binary_nums_within depth n =
  if n =? 0 then Returns [""]
  else
    match depth with
    | O => TooDeep
    | S depth' =>
        match generate_binary_nums_within depth' (n - 1) with
        | Returns binary_nums => Returns (append_suffixes binary_nums)
        | Raises => Raises
        | TooDeep => TooDeep
        end
    end.
Proof. destruct depth; reflexivity. Qed.

Lemma generate_n_digit_numbers_no_zeros_within_eq (depth : nat) (n : Z) :
  generate_n_digit_numbers_no_zeros_within depth n =
  if n =? 0 then Returns []
  else if n =? 1 then Returns [1; 2; 3; 4; 5; 6; 7; 8; 9]
  else
    match depth with
    | O => TooDeep
    | S depth' =>
        match generate_n_digit_numbers_no_zeros_within depth' (n - 1) with
        | Returns prev_numbers => Returns (prepend_digits n prev_numbers)
        | Raises => Raises
        | TooDeep => TooDeep
        end
    end.
Proof. destruct depth; reflexivity. Qed.

Lemma generate_permutations_within_eq (depth : nat) (word : string) (pos : Z) :
  generate_permutations_within depth word pos =
  if pos =? 0 then Returns [word]
  else
    match depth with
    | O => TooDeep
    | S depth' =>
        match generate_permutations_within depth' (remove_at word pos) (pos - 1) with
        | Returns perms =>
            match item word pos with
            | None => Raises
            | Some ch => Returns (interpolate_all ch perms)
            end
        | Raises => Raises
        | TooDeep => TooDeep
        end
    end.
Proof. destruct depth; reflexivity. Qed.

(** [n] nested recursive calls are enough for [generate_binary_nums(n)],
    and fewer are not. *)
Lemma generate_binary_nums_within_depth (n depth : nat) :
  generate_binary_nums_within depth (Z.of_nat n) =
  if (n <=? depth)%nat then Returns (generate_binary_nums n) else TooDeep.
Proof.
  revert depth. induction n as [|n IH]; intros depth.
  - now rewrite generate_binary_nums_within_eq.
  - rewrite generate_binary_nums_within_eq.
    destruct (Z.eqb_spec (Z.of_nat (S n)) 0) as [H|_]; [lia|].
    destruct depth as [|depth]; [reflexivity|].
    replace (Z.of_nat (S n) - 1) with (Z.of_nat n) by lia.
    rewrite IH. change (S n <=? S depth)%nat with (n <=? depth)%nat.
    now destruct (n <=? depth)%nat.
Qed.

(** A negative [n] never reaches the base case. *)
Lemma generate_binary_nums_within_negative (depth : nat) (n : Z) :
  n < 0 -> generate_binary_nums_within depth n = TooDeep.
Proof.
  revert n. induction depth as [|depth IH]; intros n Hn;
    rewrite generate_binary_nums_within_eq;
    destruct (Z.eqb_spec n 0); try lia; [reflexivity|].
  now rewrite IH by lia.
Qed.

(** [n - 1] nested recursive calls are enough for
    [generate_n_digit_numbers_no_zeros_recursive(n)], and fewer are
    not. *)
Lemma generate_n_digit_numbers_no_zeros_within_depth (n depth : nat) :
  generate_n_digit_numbers_no_zeros_within depth (Z.of_nat n) =
  if (n <=? S depth)%nat
  then Returns (generate_n_digit_numbers_no_zeros_recursive n)
  else TooDeep.
Proof.
  revert depth. induction n as [|n IH]; intros depth.
  - now rewrite generate_n_digit_numbers_no_zeros_within_eq.
  - rewrite generate_n_digit_numbers_no_zeros_within_eq.
    destruct (Z.eqb_spec (Z.of_nat (S n)) 0) as [H|_]; [lia|].
    destruct n as [|n]; [reflexivity|].
    destruct (Z.eqb_spec (Z.of_nat (S (S n))) 1) as [H|_]; [lia|].
    destruct depth as [|depth]; [reflexivity|].
    replace (Z.of_nat (S (S n)) - 1) with (Z.of_nat (S n)) by lia.
    rewrite IH.
    change (S (S n) <=? S (S depth))%nat with (S n <=? S depth)%nat.
    now destruct (S n <=? S depth)%nat.
Qed.

(** [pos] nested recursive calls are enough for
    [generate_permutations(word, pos)], and fewer are not. *)
Lemma generate_permutations_within_depth (pos depth : nat) (word : string) :
  generate_permutations_within depth word (Z.of_nat pos) =
  if (pos <=? depth)%nat
  then match generate_permutations word pos with
       | Some perms => Returns perms
       | None => Raises
       end
  else TooDeep.
Proof.
  revert depth word. induction pos as [|pos IH]; intros depth word.
  - now rewrite generate_permutations_within_eq.
  - rewrite generate_permutations_within_eq.
    destruct (Z.eqb_spec (Z.of_nat (S pos)) 0) as [H|_]; [lia|].
    destruct depth as [|depth]; [reflexivity|].
    replace (Z.of_nat (S pos) - 1) with (Z.of_nat pos) by lia.
    rewrite IH, generate_permutations_S.
    change (S pos <=? S depth)%nat with (pos <=? depth)%nat.
    destruct (pos <=? depth)%nat; [|reflexivity].
    destruct (generate_permutations _ pos); [|reflexivity].
    now destruct (item word (Z.of_nat (S pos))).
Qed.

End Depth.

(** C9. Every generator returns on every well-formed input, and its
    recursion is no deeper than its integer argument:
    [generate_binary_nums(n)] and
    [generate_n_digit_numbers_no_zeros_recursive(n)] return for every
    [n >= 0] within [n] nested recursive calls, and
    [generate_permutations(word, pos)] returns for every word with
    [pos = len(word) - 1 >= 0] within [pos] nested recursive calls; each
    recursive call is on the argument decreased by one. *)
Theorem generators_terminate :
  (forall n depth,
      0 <= n -> (Z.to_nat n <= depth)%nat ->
      generate_binary_nums_within depth n =
      Returns (generate_binary_nums (Z.to_nat n))) /\
  (forall n depth,
      0 <= n -> (Z.to_nat n <= depth)%nat ->
      generate_n_digit_numbers_no_zeros_within depth n =
      Returns (generate_n_digit_numbers_no_zeros_recursive (Z.to_nat n))) /\
  (forall word pos depth,
      0 <= pos -> pos = len word - 1 -> (Z.to_nat pos <= depth)%nat ->
      exists perms,
        generate_permutations_within depth word pos = Returns perms /\
        generate_permutations word (Z.to_nat pos) = Some perms).
Proof.
  split; [|split].
  - intros n depth Hn Hd. rewrite <- (Z2Nat.id n Hn) at 1.
    rewrite generate_binary_nums_within_depth.
    now destruct (Nat.leb_spec (Z.to_nat n) depth); [|lia].
  - intros n depth Hn Hd. rewrite <- (Z2Nat.id n Hn) at 1.
    rewrite generate_n_digit_numbers_no_zeros_within_depth.
    now destruct (Nat.leb_spec (Z.to_nat n) (S depth)); [|lia].
  - intros word pos depth Hpos Hlen Hd.
    assert (Hword : String.length word = S (Z.to_nat pos))
      by (unfold len in Hlen; lia).
    destruct (generate_permutations_last_index _ word Hword)
      as (perms & Hgen & _).
    exists perms. split; [|exact Hgen].
    rewrite <- (Z2Nat.id pos Hpos) at 1.
    rewrite generate_permutations_within_depth, Hgen.
    now destruct (Nat.leb_spec (Z.to_nat pos) depth); [|lia].
Qed.

(* ===================================================================== *)
(** ** Assertions of the sources' test functions, evaluated *)
(* ===================================================================== *)

Example generate_binary_nums_3 :
  generate_binary_nums 3 =
  ["000"; "001"; "010"; "011"; "100"; "101"; "110"; "111"].
Proof. reflexivity. Qed.

Example generate_n_digit_numbers_3_count :
  List.length (generate_n_digit_numbers_no_zeros_recursive 3) = 729%nat /\
  hd 0 (generate_n_digit_numbers_no_zeros_recursive 3) = 111 /\
  last (generate_n_digit_numbers_no_zeros_recursive 3) 0 = 999.
Proof. vm_compute. repeat split. Qed.

Example generate_n_digit_numbers_summing_to_k_2_9 :
  generate_n_digit_numbers_summing_to_k 2 9 = [18; 27; 36; 45; 54; 63; 72; 81].
Proof. vm_compute. reflexivity. Qed.

Example generate_n_digit_numbers_summing_to_k_1 :
  map (generate_n_digit_numbers_summing_to_k 1) (range 0 11) =
  [[]; [1]; [2]; [3]; [4]; [5]; [6]; [7]; [8]; [9]; []].
Proof. vm_compute. reflexivity. Qed.

Example interpolate_y_hello :
  interpolate "y" "hello" =
  ["yhello"; "hyello"; "heyllo"; "helylo"; "hellyo"; "helloy"].
Proof. reflexivity. Qed.

Example generate_permutations_abc :
  generate_permutations "abc" 2 =
  Some ["cba"; "bca"; "bac"; "cab"; "acb"; "abc"].
Proof. reflexivity. Qed.

Example generate_permutations_within_abc :
  generate_permutations_within 2 "abc" 2 =
  Returns ["cba"; "bca"; "bac"; "cab"; "acb"; "abc"] /\
  generate_permutations_within 1 "abc" 2 = TooDeep.
Proof. split; reflexivity. Qed.


(* ===================================================================== *)
(** ** Further properties of the binary strings *)
(* ===================================================================== *)

Section BinaryValues.




Lemma append_suffixes_app (l1 l2 : list string) :
  append_suffixes (l1 ++ l2) = append_suffixes l1 ++ append_suffixes l2.
Proof. apply flat_map_app. Qed.

Lemma append_suffixes_map_String (c : ascii) (l : list string) :
  append_suffixes (map (String c) l) = map (String c) (append_suffixes l).
Proof.
  induction l as [|s l IH]; [reflexivity|].
  cbn [map]. rewrite !append_suffixes_cons. cbn [map]. now rewrite IH.
Qed.

End BinaryValues.


(** X2. For [n >= 1], [generate_binary_nums(n)] is every string of
    [generate_binary_nums(n-1)] with "0" put in front, followed by every
    such string with "1" put in front. *)
Theorem generate_binary_nums_by_first_digit (n : nat) (Hn : (1 <= n)%nat) :
  generate_binary_nums n =
  map (fun s => ("0" ++ s)%string) (generate_binary_nums (n - 1)) ++
  map (fun s => ("1" ++ s)%string) (generate_binary_nums (n - 1)).
Proof.
  destruct n as [|n]; [lia|]. clear Hn.
  replace (S n - 1)%nat with n by lia.
  induction n as [|n IH]; [reflexivity|].
  change (generate_binary_nums (S (S n)))
    with (append_suffixes (generate_binary_nums (S n))).
  rewrite IH at 1.
  rewrite append_suffixes_app.
  change (fun s => ("0" ++ s)%string) with (String "0").
  change (fun s => ("1" ++ s)%string) with (String "1").
  now rewrite !append_suffixes_map_String.
Qed.

Lemma generate_binary_nums_by_first_digit_witness :
  (1 <= 3)%nat /\
  generate_binary_nums 3 =
  map (fun s => ("0" ++ s)%string) (generate_binary_nums (3 - 1)) ++
  map (fun s => ("1" ++ s)%string) (generate_binary_nums (3 - 1)).
Proof.
  split; [lia|]. apply (generate_binary_nums_by_first_digit 3). lia.
Defined.

(* ===================================================================== *)
(** ** Further properties of the zero-free numbers *)
(* ===================================================================== *)

Section NoZerosExact.

(** Every number written with [n >= 1] digits between 1 and 9 is
    generated. *)
Lemma generate_n_digit_numbers_complete (n : nat) (ds : list Z) :
  List.length ds = S n -> zero_free ds ->
  In (decimal_value ds) (generate_n_digit_numbers_no_zeros_recursive (S n)).
Proof.
  revert ds. induction n as [|n IH]; intros ds Hlen Hds.
  - destruct ds as [|d [|e ds]]; try discriminate.
    apply Forall_inv in Hds.
    change (generate_n_digit_numbers_no_zeros_recursive 1) with (range 1 10).
    apply in_range. cbn [decimal_value List.length].
    change (10 ^ Z.of_nat 0) with 1. lia.
  - destruct ds as [|d ds]; [discriminate|]. injection Hlen as Hlen.
    rewrite generate_n_digit_numbers_step by lia.
    apply in_prepend_digits.
    exists d, (decimal_value ds). split; [now apply Forall_inv in Hds|].
    split; [apply IH; [exact Hlen|now apply Forall_inv_tail in Hds]|].
    cbn [decimal_value]. rewrite Hlen.
    now replace (Z.of_nat (S (S n)) - 1) with (Z.of_nat (S n)) by lia.
Qed.

Lemma has_no_zero_digit_digits (num : Z) (n : nat) :
  10 ^ Z.of_nat n <= num < 10 ^ Z.of_nat (S n) ->
  has_no_zero_digit num ->
  exists ds, List.length ds = S n /\ zero_free ds /\ decimal_value ds = num.
Proof.
  intros Hnum (ds & Hrep & Hnz).
  exists ds. split; [now apply (decimal_representation_length ds num)|].
  destruct Hrep as (Hds & _ & Hval). split; [|exact Hval].
  unfold zero_free. rewrite Forall_forall in *. intros d Hd.
  pose proof (Hds d Hd) as H1. pose proof (Hnz d Hd) as H2.
  unfold is_digit in H1. lia.
Qed.

Lemma zero_free_has_no_zero_digit (ds : list Z) (n : nat) :
  List.length ds = S n -> zero_free ds ->
  has_no_zero_digit (decimal_value ds).
Proof.
  intros Hlen Hds. exists ds. split.
  - now apply (zero_free_representation ds n).
  - now apply zero_free_no_zero.
Qed.

Lemma in_generate_n_digit_numbers (n : nat) (num : Z) :
  In num (generate_n_digit_numbers_no_zeros_recursive (S n)) <->
  10 ^ Z.of_nat n <= num < 10 ^ Z.of_nat (S n) /\ has_no_zero_digit num.
Proof.
  split.
  - intros Hin. split; [now apply generate_n_digit_numbers_range|].
    destruct (generate_n_digit_numbers_digits _ _ Hin) as (ds & Hlen & Hds & <-).
    now apply (zero_free_has_no_zero_digit ds n).
  - intros [Hnum Hnz].
    destruct (has_no_zero_digit_digits num n Hnum Hnz) as (ds & Hlen & Hds & <-).
    now apply generate_n_digit_numbers_complete.
Qed.

Lemma zero_free_between (ds : list Z) :
  zero_free ds ->
  decimal_value (repeat 1 (List.length ds)) <= decimal_value ds
  <= decimal_value (repeat 9 (List.length ds)).
Proof.
  induction 1 as [|d ds Hd Hds IH]; [simpl; lia|].
  cbn [List.length repeat decimal_value]. rewrite !repeat_length.
  pose proof (pow10_pos (List.length ds)). nia.
Qed.

Lemma zero_free_sum_max (ds : list Z) :
  zero_free ds -> sum_of ds = 9 * Z.of_nat (List.length ds) ->
  ds = repeat 9 (List.length ds).
Proof.
  induction 1 as [|d ds Hd Hds IH]; intros Hsum; [reflexivity|].
  pose proof (zero_free_sum ds Hds) as Hb.
  cbn [sum_of fold_right List.length repeat] in *. fold (sum_of ds) in *.
  assert (d = 9) by lia. subst d. f_equal. apply IH. lia.
Qed.

Lemma zero_free_sum_min (ds : list Z) :
  zero_free ds -> sum_of ds = Z.of_nat (List.length ds) ->
  ds = repeat 1 (List.length ds).
Proof.
  induction 1 as [|d ds Hd Hds IH]; intros Hsum; [reflexivity|].
  pose proof (zero_free_sum ds Hds) as Hb.
  cbn [sum_of fold_right List.length repeat] in *. fold (sum_of ds) in *.
  assert (d = 1) by lia. subst d. f_equal. apply IH. lia.
Qed.

Lemma zero_free_repeat (d : Z) (n : nat) :
  1 <= d <= 9 -> zero_free (repeat d n).
Proof.
  intros Hd. apply Forall_forall. intros x Hx.
  apply repeat_spec in Hx. now subst x.
Qed.

Lemma sum_of_repeat (d : Z) (n : nat) : sum_of (repeat d n) = d * Z.of_nat n.
Proof.
  induction n as [|n IH]; [simpl; lia|].
  cbn [repeat sum_of fold_right]. fold (sum_of (repeat d n)). lia.
Qed.

End NoZerosExact.

Section SortedLists.

Lemma StronglySorted_filter (p : Z -> bool) (l : list Z) :
  StronglySorted Z.lt l -> StronglySorted Z.lt (filter p l).
Proof.
  induction 1 as [|x l Hl IH Hx]; simpl; [constructor|].
  destruct (p x); [|exact IH].
  constructor; [exact IH|].
  apply Forall_forall. intros y Hy. apply filter_In in Hy.
  rewrite Forall_forall in Hx. now apply Hx.
Qed.

(** A strictly increasing list all of whose elements equal [x], and
    which contains [x], is [[x]]. *)
Lemma StronglySorted_singleton (x : Z) (l : list Z) :
  StronglySorted Z.lt l -> (forall y, In y l -> y = x) -> In x l -> l = [x].
Proof.
  intros Hs Hall Hin. destruct l as [|a [|b l]]; [destruct Hin| |].
  - f_equal. apply Hall. now left.
  - exfalso. inversion Hs as [|? ? _ Ha]; subst.
    apply Forall_inv in Ha.
    rewrite (Hall a), (Hall b) in Ha; [lia|right; now left|now left].
Qed.

Lemma StronglySorted_range (start stop : Z) :
  StronglySorted Z.lt (range start stop).
Proof.
  unfold range. generalize (Z.to_nat (stop - start)) as m. intros m.
  generalize 0%nat as a. induction m as [|m IH]; intros a; simpl.
  - constructor.
  - constructor; [apply IH|].
    apply Forall_forall. intros y Hy. apply in_map_iff in Hy.
    destruct Hy as (i & <- & Hi). apply in_seq in Hi. lia.
Qed.


(** Between two strictly increasing lists, membership decides
    selection: if the elements of [l'] are the elements of [l]
    satisfying [P], then [l'] is [l] with those elements kept. *)
Lemma keeps_sorted (P : Z -> Prop) (l l' : list Z) :
  StronglySorted Z.lt l -> StronglySorted Z.lt l' ->
  (forall x, In x l' <-> In x l /\ P x) ->
  keeps P l l'.
Proof.
  intros Hl. revert l'. induction Hl as [|x l Hl IH Hx]; intros l' Hl' H.
  - destruct l' as [|y l']; [constructor|].
    destruct (proj1 (H y) (or_introl eq_refl)) as [[] _].
  - rewrite Forall_forall in Hx.
    destruct (in_dec Z.eq_dec x l') as [Hin|Hnin].
    + destruct l' as [|y l']; [destruct Hin|].
      inversion Hl' as [|? ? Hl'' Hy]; subst. rewrite Forall_forall in Hy.
      assert (y = x).
      { destruct (proj1 (H y) (or_introl eq_refl)) as [[Hyx|Hyl] _];
          [now symmetry|].
        destruct Hin as [Hxy|Hxl']; [exact Hxy|].
        pose proof (Hx y Hyl). pose proof (Hy x Hxl'). lia. }
      subst y. apply keeps_yes; [apply H; now left|].
      apply IH; [exact Hl''|]. intros z. split.
      * intros Hz. destruct (proj1 (H z) (or_intror Hz)) as [[Hzx|Hzl] HP].
        -- pose proof (Hy z Hz). lia.
        -- now split.
      * intros [Hz HP]. destruct (proj2 (H z) (conj (or_intror Hz) HP))
          as [Hzx|Hzl']; [|exact Hzl'].
        pose proof (Hx z Hz). lia.
    + apply keeps_no.
      * intros HP. apply Hnin. apply H. split; [now left|exact HP].
      * apply IH; [exact Hl'|]. intros z. split.
        -- intros Hz. destruct (proj1 (H z) Hz) as [[Hzx|Hzl] HP].
           ++ subst z. contradiction.
           ++ now split.
        -- intros [Hz HP]. apply H. split; [now right|exact HP].
Qed.

End SortedLists.

(** X3. For [n >= 1], [generate_n_digit_numbers_no_zeros_recursive(n)]
    contains exactly the numbers with [10^(n-1) <= num < 10^n] whose
    decimal representation has no digit 0: no such number is missed. *)
Theorem generate_n_digit_numbers_exactly_zero_free (n : nat) (num : Z)
        (Hn : (1 <= n)%nat) :
  In num (generate_n_digit_numbers_no_zeros_recursive n) <->
  10 ^ (Z.of_nat n - 1) <= num < 10 ^ Z.of_nat n /\ has_no_zero_digit num.
Proof.
  destruct n as [|n]; [lia|].
  replace (Z.of_nat (S n) - 1) with (Z.of_nat n) by lia.
  apply in_generate_n_digit_numbers.
Qed.

Lemma generate_n_digit_numbers_exactly_zero_free_witness :
  (1 <= 2)%nat /\
  (In 47 (generate_n_digit_numbers_no_zeros_recursive 2) <->
   10 ^ (Z.of_nat 2 - 1) <= 47 < 10 ^ Z.of_nat 2 /\ has_no_zero_digit 47).
Proof.
  assert (H : (1 <= 2)%nat) by lia.
  split; [exact H|].
  exact (generate_n_digit_numbers_exactly_zero_free 2 47 H).
Defined.

(** X4. For [n >= 1], the smallest number returned by
    [generate_n_digit_numbers_no_zeros_recursive(n)] is the number
    written with [n] digits 1 and the largest is the number written with
    [n] digits 9: both are returned and every returned number lies
    between them. *)
Theorem generate_n_digit_numbers_min_max (n : nat) (Hn : (1 <= n)%nat) :
  In (decimal_value (repeat 1 n))
     (generate_n_digit_numbers_no_zeros_recursive n) /\
  In (decimal_value (repeat 9 n))
     (generate_n_digit_numbers_no_zeros_recursive n) /\
  forall num,
    In num (generate_n_digit_numbers_no_zeros_recursive n) ->
    decimal_value (repeat 1 n) <= num <= decimal_value (repeat 9 n).
Proof.
  destruct n as [|n]; [lia|].
  split; [|split].
  - apply generate_n_digit_numbers_complete;
      [apply repeat_length | apply zero_free_repeat; lia].
  - apply generate_n_digit_numbers_complete;
      [apply repeat_length | apply zero_free_repeat; lia].
  - intros num Hin.
    destruct (generate_n_digit_numbers_digits _ _ Hin) as (ds & Hlen & Hds & <-).
    rewrite <- Hlen. now apply zero_free_between.
Qed.

Lemma generate_n_digit_numbers_min_max_witness :
  (1 <= 2)%nat /\
  In (decimal_value (repeat 1 2))
     (generate_n_digit_numbers_no_zeros_recursive 2).
Proof.
  assert (H : (1 <= 2)%nat) by lia.
  split; [exact H|].
  exact (proj1 (generate_n_digit_numbers_min_max 2 H)).
Defined.

(** X5. For [n >= 1] and any [k],
    [generate_n_digit_numbers_summing_to_k(n, k)] is strictly increasing,
    hence without duplicates, and contains exactly the numbers with
    [10^(n-1) <= num < 10^n] that have no digit 0 and digit sum [k]. *)
Theorem generate_n_digit_numbers_summing_to_k_exact (n : nat) (k : Z)
        (Hn : (1 <= n)%nat) :
  StronglySorted Z.lt (generate_n_digit_numbers_summing_to_k n k) /\
  NoDup (generate_n_digit_numbers_summing_to_k n k) /\
  forall num,
    In num (generate_n_digit_numbers_summing_to_k n k) <->
    10 ^ (Z.of_nat n - 1) <= num < 10 ^ Z.of_nat n /\
    has_no_zero_digit num /\ has_digit_sum num k.
Proof.
  unfold generate_n_digit_numbers_summing_to_k. cbv zeta.
  rewrite filter_numbers_by_digit_sum_filter.
  assert (Hs : StronglySorted Z.lt
                 (filter (fun num => digit_sum_while 0 num =? k)
                         (generate_n_digit_numbers_no_zeros_recursive n))).
  { apply StronglySorted_filter, StronglySorted_generate_n_digit_numbers. }
  split; [exact Hs|]. split.
  { apply (StronglySorted_NoDup Z.lt); [intros x; lia|exact Hs]. }
  intros num. rewrite filter_In, Z.eqb_eq.
  destruct n as [|n]; [lia|].
  replace (Z.of_nat (S n) - 1) with (Z.of_nat n) by lia.
  rewrite in_generate_n_digit_numbers.
  pose proof (pow10_pos n) as Hp.
  split.
  - intros [[Hr Hz] Hk]. split; [exact Hr|]. split; [exact Hz|].
    apply digit_sum_while_has_digit_sum; [lia|exact Hk].
  - intros (Hr & Hz & Hk). split; [now split|].
    apply digit_sum_while_has_digit_sum; [lia|exact Hk].
Qed.

Lemma generate_n_digit_numbers_summing_to_k_exact_witness :
  (1 <= 2)%nat /\
  StronglySorted Z.lt (generate_n_digit_numbers_summing_to_k 2 9).
Proof.
  assert (H : (1 <= 2)%nat) by lia.
  split; [exact H|].
  exact (proj1 (generate_n_digit_numbers_summing_to_k_exact 2 9 H)).
Defined.

(** X6. For [n >= 1], the only number with [n] zero-free digits and
    digit sum [9 * n] is the one written with [n] digits 9, and the only
    one with digit sum [n] is the one written with [n] digits 1:
    [generate_n_digit_numbers_summing_to_k] returns one-element lists
    for these two sums. *)
Theorem generate_n_digit_numbers_summing_to_k_extremes (n : nat)
        (Hn : (1 <= n)%nat) :
  generate_n_digit_numbers_summing_to_k n (9 * Z.of_nat n) =
    [decimal_value (repeat 9 n)] /\
  generate_n_digit_numbers_summing_to_k n (Z.of_nat n) =
    [decimal_value (repeat 1 n)].
Proof.
  unfold generate_n_digit_numbers_summing_to_k. cbv zeta.
  rewrite !filter_numbers_by_digit_sum_filter.
  destruct n as [|n]; [lia|].
  split; apply StronglySorted_singleton.
  - apply StronglySorted_filter, StronglySorted_generate_n_digit_numbers.
  - intros num Hin. apply filter_In in Hin. destruct Hin as [Hin Hk].
    apply Z.eqb_eq in Hk.
    destruct (generate_n_digit_numbers_digits _ _ Hin) as (ds & Hlen & Hds & <-).
    rewrite digit_sum_while_digits in Hk by now apply zero_free_is_digit.
    rewrite <- Hlen in Hk |- *. f_equal. apply zero_free_sum_max; [exact Hds|lia].
  - apply filter_In. split.
    + apply generate_n_digit_numbers_complete;
        [apply repeat_length | apply zero_free_repeat; lia].
    + apply Z.eqb_eq.
      rewrite digit_sum_while_digits
        by (apply zero_free_is_digit, zero_free_repeat; lia).
      rewrite sum_of_repeat. lia.
  - apply StronglySorted_filter, StronglySorted_generate_n_digit_numbers.
  - intros num Hin. apply filter_In in Hin. destruct Hin as [Hin Hk].
    apply Z.eqb_eq in Hk.
    destruct (generate_n_digit_numbers_digits _ _ Hin) as (ds & Hlen & Hds & <-).
    rewrite digit_sum_while_digits in Hk by now apply zero_free_is_digit.
    rewrite <- Hlen in Hk |- *. f_equal. apply zero_free_sum_min; [exact Hds|lia].
  - apply filter_In. split.
    + apply generate_n_digit_numbers_complete;
        [apply repeat_length | apply zero_free_repeat; lia].
    + apply Z.eqb_eq.
      rewrite digit_sum_while_digits
        by (apply zero_free_is_digit, zero_free_repeat; lia).
      rewrite sum_of_repeat. lia.
Qed.

Lemma generate_n_digit_numbers_summing_to_k_extremes_witness :
  (1 <= 2)%nat /\
  generate_n_digit_numbers_summing_to_k 2 (9 * Z.of_nat 2) =
    [decimal_value (repeat 9 2)].
Proof.
  assert (H : (1 <= 2)%nat) by lia.
  split; [exact H|].
  exact (proj1 (generate_n_digit_numbers_summing_to_k_extremes 2 H)).
Defined.

(** X7. [filter_numbers_by_digit_sum] gives a number that is not
    positive the digit sum 0, since its loop body never runs: such a
    number, negative ones included, is kept exactly when [k == 0]. *)
Theorem filter_numbers_by_digit_sum_not_positive (numbers : list Z)
        (k num : Z) (Hnum : num <= 0) :
  In num (filter_numbers_by_digit_sum numbers k) <->
  In num numbers /\ k = 0.
Proof.
  rewrite filter_numbers_by_digit_sum_filter, filter_In, Z.eqb_eq.
  rewrite digit_sum_while_done by exact Hnum.
  split; intros [H1 H2]; split; auto.
Qed.

Lemma filter_numbers_by_digit_sum_not_positive_witness :
  -12 <= 0 /\
  (In (-12) (filter_numbers_by_digit_sum [3; -12; 30] 0) <->
   In (-12) [3; -12; 30] /\ 0 = 0).
Proof.
  assert (H : -12 <= 0) by lia.
  split; [exact H|].
  apply (filter_numbers_by_digit_sum_not_positive [3; -12; 30] 0 (-12) H).
Defined.

(** X8. Filtering twice: filtering the result of
    [filter_numbers_by_digit_sum(numbers, k)] by the same [k] changes
    nothing, and filtering it by another sum leaves nothing; filtering a
    concatenation is concatenating the filtered parts. *)
Theorem filter_numbers_by_digit_sum_twice (numbers more : list Z) (k j : Z) :
  filter_numbers_by_digit_sum (filter_numbers_by_digit_sum numbers k) j =
    (if j =? k then filter_numbers_by_digit_sum numbers k else []) /\
  filter_numbers_by_digit_sum (numbers ++ more) k =
    filter_numbers_by_digit_sum numbers k ++
    filter_numbers_by_digit_sum more k.
Proof.
  rewrite !filter_numbers_by_digit_sum_filter. split; [|apply filter_app].
  induction numbers as [|num numbers IH]; simpl.
  - now destruct (j =? k).
  - destruct (Z.eqb_spec (digit_sum_while 0 num) k) as [E|E]; [|exact IH].
    simpl. rewrite IH, E.
    destruct (Z.eqb_spec k j) as [->|Hkj].
    + now rewrite Z.eqb_refl.
    + destruct (Z.eqb_spec j k); [congruence|reflexivity].
Qed.

(* ===================================================================== *)
(** ** The version without recursion *)
(* ===================================================================== *)

Section Simple.


Lemma generate_n_digit_numbers_no_zeros_simple_some (n : Z) :
  1 <= n ->
  generate_n_digit_numbers_no_zeros_simple n =
  Some (range (10 ^ (n - 1)) (10 ^ n)).
Proof.
  intros Hn. unfold generate_n_digit_numbers_no_zeros_simple.
  destruct (Z.ltb_spec (n - 1) 0); [lia|reflexivity].
Qed.


Lemma decimal_value_repeat_0 (m : nat) : decimal_value (repeat 0 m) = 0.
Proof.
  induction m as [|m IH]; [reflexivity|].
  cbn [repeat decimal_value]. rewrite IH. lia.
Qed.

(** A power of ten other than 1 is written with a digit 0. *)
Lemma power_of_ten_has_zero_digit (m : nat) :
  ~ has_no_zero_digit (10 ^ Z.of_nat (S m)).
Proof.
  intros (ds & Hrep & Hnz).
  assert (Hten : is_decimal_representation (1 :: repeat 0 (S m))
                                           (10 ^ Z.of_nat (S m))).
  { split; [|split].
    - constructor; [unfold is_digit; lia|].
      apply Forall_forall. intros d Hd. apply repeat_spec in Hd.
      subst d. unfold is_digit. lia.
    - right. exists 1, (repeat 0 (S m)). split; [reflexivity|lia].
    - cbn [decimal_value]. rewrite decimal_value_repeat_0, repeat_length. lia. }
  rewrite (decimal_representation_unique _ _ _ Hrep Hten) in Hnz.
  apply Forall_inv_tail, Forall_inv in Hnz. now apply Hnz.
Qed.

End Simple.


(** X10. Despite its name the version without recursion returns numbers
    containing the digit 0: for [n >= 1] the recursive generator returns
    its list with exactly the numbers free of the digit 0 kept, in the
    same order, and for [n >= 2] the number [10^(n-1)], which has a
    digit 0, is in the list of the version without recursion. *)
Theorem generate_n_digit_numbers_recursive_selects_zero_free (n : nat)
        (Hn : (1 <= n)%nat) :
  exists numbers,
    generate_n_digit_numbers_no_zeros_simple (Z.of_nat n) = Some numbers /\
    keeps has_no_zero_digit numbers
          (generate_n_digit_numbers_no_zeros_recursive n) /\
    ((2 <= n)%nat ->
     In (10 ^ (Z.of_nat n - 1)) numbers /\
     ~ has_no_zero_digit (10 ^ (Z.of_nat n - 1))).
Proof.
  destruct n as [|n]; [lia|].
  exists (range (10 ^ (Z.of_nat (S n) - 1)) (10 ^ Z.of_nat (S n))).
  split; [apply generate_n_digit_numbers_no_zeros_simple_some; lia|].
  replace (Z.of_nat (S n) - 1) with (Z.of_nat n) by lia.
  split.
  - apply keeps_sorted.
    + apply StronglySorted_range.
    + apply StronglySorted_generate_n_digit_numbers.
    + intros num. rewrite in_range. apply in_generate_n_digit_numbers.
  - intros Hn2. destruct n as [|n]; [lia|]. split.
    + apply in_range. split; [lia|].
      apply Z.pow_lt_mono_r; lia.
    + apply power_of_ten_has_zero_digit.
Qed.

Lemma generate_n_digit_numbers_recursive_selects_zero_free_witness :
  (1 <= 2)%nat /\
  exists numbers,
    generate_n_digit_numbers_no_zeros_simple (Z.of_nat 2) = Some numbers /\
    keeps has_no_zero_digit numbers
          (generate_n_digit_numbers_no_zeros_recursive 2) /\
    ((2 <= 2)%nat ->
     In (10 ^ (Z.of_nat 2 - 1)) numbers /\
     ~ has_no_zero_digit (10 ^ (Z.of_nat 2 - 1))).
Proof.
  assert (H : (1 <= 2)%nat) by lia.
  split; [exact H|].
  exact (generate_n_digit_numbers_recursive_selects_zero_free 2 H).
Defined.

(** X11. For [n >= 1],
    [generate_n_digit_numbers_summing_to_k_simple(n, k)] returns, in
    increasing order, exactly the integers [num] with
    [10^(n-1) <= num < 10^n] and digit sum [k]; the result of
    [generate_n_digit_numbers_summing_to_k(n, k)] is this list with
    exactly the numbers free of the digit 0 kept. *)
Theorem generate_n_digit_numbers_summing_to_k_simple_exact (n : nat) (k : Z)
        (Hn : (1 <= n)%nat) :
  exists result,
    generate_n_digit_numbers_summing_to_k_simple (Z.of_nat n) k = Some result /\
    (forall num,
        In num result <->
        10 ^ (Z.of_nat n - 1) <= num < 10 ^ Z.of_nat n /\ has_digit_sum num k) /\
    StronglySorted Z.lt result /\
    keeps has_no_zero_digit result (generate_n_digit_numbers_summing_to_k n k).
Proof.
  destruct n as [|n]; [lia|].
  unfold generate_n_digit_numbers_summing_to_k_simple.
  rewrite generate_n_digit_numbers_no_zeros_simple_some by lia.
  replace (Z.of_nat (S n) - 1) with (Z.of_nat n) by lia.
  eexists. split; [reflexivity|].
  unfold generate_n_digit_numbers_summing_to_k. cbv zeta.
  rewrite !filter_numbers_by_digit_sum_filter.
  pose proof (pow10_pos n) as Hp.
  assert (Hmem : forall num,
             In num (filter (fun num => digit_sum_while 0 num =? k)
                            (range (10 ^ Z.of_nat n) (10 ^ Z.of_nat (S n)))) <->
             10 ^ Z.of_nat n <= num < 10 ^ Z.of_nat (S n) /\
             has_digit_sum num k).
  { intros num. rewrite filter_In, in_range, Z.eqb_eq.
    split; intros [Hr Hk]; (split; [exact Hr|]);
      apply digit_sum_while_has_digit_sum; auto; lia. }
  split; [exact Hmem|].
  split; [apply StronglySorted_filter, StronglySorted_range|].
  apply keeps_sorted.
  - apply StronglySorted_filter, StronglySorted_range.
  - apply StronglySorted_filter, StronglySorted_generate_n_digit_numbers.
  - intros num. rewrite Hmem, filter_In, in_generate_n_digit_numbers, Z.eqb_eq.
    split.
    + intros [[Hr Hz] Hk]. split; [|exact Hz]. split; [exact Hr|].
      apply digit_sum_while_has_digit_sum; [lia|exact Hk].
    + intros [[Hr Hk] Hz]. split; [now split|].
      apply digit_sum_while_has_digit_sum; [lia|exact Hk].
Qed.

Lemma generate_n_digit_numbers_summing_to_k_simple_exact_witness :
  (1 <= 2)%nat /\
  exists result,
    generate_n_digit_numbers_summing_to_k_simple (Z.of_nat 2) 9 = Some result /\
    (forall num,
        In num result <->
        10 ^ (Z.of_nat 2 - 1) <= num < 10 ^ Z.of_nat 2 /\ has_digit_sum num 9) /\
    StronglySorted Z.lt result /\
    keeps has_no_zero_digit result (generate_n_digit_numbers_summing_to_k 2 9).
Proof.
  assert (H : (1 <= 2)%nat) by lia.
  split; [exact H|].
  exact (generate_n_digit_numbers_summing_to_k_simple_exact 2 9 H).
Defined.

(* ===================================================================== *)
(** ** Further properties of interpolation and of the permutations *)
(* ===================================================================== *)

Section InsertRemove.

Context {A : Type}.

(** Removing the element at the position of insertion undoes the
    insertion. *)
Lemma remove_insert_at (i : nat) (x : A) (l : list A) :
  (i <= List.length l)%nat ->
  firstn i (insert_at i x l) ++ skipn (S i) (insert_at i x l) = l.
Proof.
  intros Hi. unfold insert_at.
  pose proof (firstn_skipn i l) as E.
  assert (Hlen : List.length (firstn i l) = i)
    by (rewrite length_firstn; lia).
  remember (firstn i l) as a eqn:Ea. remember (skipn i l) as b eqn:Eb.
  clear Ea Eb Hi. subst l i.
  rewrite firstn_app, firstn_all, Nat.sub_diag. simpl firstn.
  rewrite app_nil_r. f_equal.
  replace (a ++ x :: b) with ((a ++ [x]) ++ b) by now rewrite <- app_assoc.
  replace (S (List.length a)) with (List.length (a ++ [x]))
    by (rewrite length_app; simpl; lia).
  now rewrite skipn_app, skipn_all, Nat.sub_diag.
Qed.

(** Inserting an element just before or just after an occurrence of
    itself gives the same list. *)
Lemma insert_at_next_to_itself (i : nat) (x : A) (l : list A) :
  nth_error l i = Some x -> insert_at i x l = insert_at (S i) x l.
Proof.
  intros H. apply nth_error_split in H. destruct H as (l1 & l2 & -> & <-).
  rewrite insert_at_split.
  replace (l1 ++ x :: l2) with ((l1 ++ [x]) ++ l2) by now rewrite <- app_assoc.
  replace (S (List.length l1)) with (List.length (l1 ++ [x]))
    by (rewrite length_app; simpl; lia).
  rewrite insert_at_split. now rewrite <- app_assoc.
Qed.

Lemma insert_at_split_end (x : A) (l : list A) :
  insert_at (List.length l) x l = l ++ [x].
Proof.
  rewrite <- (app_nil_r l) at 2. rewrite insert_at_split. reflexivity.
Qed.

Lemma NoDup_map_injective {B : Type} (f : A -> B) (l : list A) (x y : A) :
  NoDup (map f l) -> In x l -> In y l -> f x = f y -> x = y.
Proof.
  induction l as [|a l IH]; intros Hnd Hx Hy E; [destruct Hx|].
  simpl in Hnd. inversion Hnd as [|? ? Ha Hl]; subst.
  destruct Hx as [->|Hx], Hy as [->|Hy]; auto.
  - exfalso. apply Ha. rewrite E. now apply in_map.
  - exfalso. apply Ha. rewrite <- E. now apply in_map.
Qed.

End InsertRemove.

Section PermutationsAnyPos.

(** Removing the character at a valid index [pos]. *)
Lemma remove_at_valid (word : string) (pos : nat) :
  (pos < String.length word)%nat ->
  exists ch,
    item word (Z.of_nat pos) = Some ch /\
    Permutation (ch :: chars (remove_at word (Z.of_nat pos))) (chars word) /\
    S (String.length (remove_at word (Z.of_nat pos))) = String.length word.
Proof.
  intros Hpos. rewrite <- !chars_length in *.
  rewrite item_nat, chars_remove_at.
  set (l := chars word) in *.
  destruct (nth_error l pos) as [ch|] eqn:E.
  2:{ apply nth_error_None in E. lia. }
  exists ch. split; [reflexivity|].
  apply nth_error_split in E. destruct E as (l1 & l2 & El & Hl1).
  assert (E1 : firstn pos l = l1).
  { rewrite El, <- Hl1, firstn_app, firstn_all, Nat.sub_diag. simpl.
    apply app_nil_r. }
  assert (E2 : skipn (S pos) l = l2).
  { rewrite El.
    replace (l1 ++ ch :: l2) with ((l1 ++ [ch]) ++ l2)
      by now rewrite <- app_assoc.
    replace (S pos) with (List.length (l1 ++ [ch]))
      by (rewrite length_app; simpl; lia).
    rewrite skipn_app, skipn_all, Nat.sub_diag. reflexivity. }
  rewrite E1, E2, El. split.
  - apply Permutation_middle.
  - rewrite !length_app. simpl. lia.
Qed.

(** What [generate_permutations] returns for any valid index [pos]. *)
Lemma generate_permutations_valid_index (pos : nat) :
  forall word,
    (pos < String.length word)%nat ->
    exists perms,
      generate_permutations word pos = Some perms /\
      (forall s, In s perms -> Permutation (chars s) (chars word)) /\
      (List.length perms * fact (String.length word - pos) =
       fact (String.length word))%nat.
Proof.
  induction pos as [|pos IH]; intros word Hpos.
  - exists [word]. split; [reflexivity|]. split.
    + intros s [<-|[]]. reflexivity.
    + rewrite Nat.sub_0_r. simpl. lia.
  - destruct (remove_at_valid word (S pos) Hpos) as (ch & Hitem & Hperm & Hlen).
    rewrite generate_permutations_S, Hitem.
    set (curr_word := remove_at word (Z.of_nat (S pos))) in *.
    destruct (IH curr_word ltac:(lia)) as (perms & -> & Hsound & Hcount).
    exists (interpolate_all ch perms). split; [reflexivity|]. split.
    + intros s Hs. apply in_flat_map in Hs. destruct Hs as (perm & Hp & Hs).
      apply in_interpolate in Hs. destruct Hs as (i & _ & ->).
      rewrite insert_at_Permutation, <- Hperm.
      apply perm_skip. now apply Hsound.
    + unfold interpolate_all.
      rewrite (length_flat_map_const _ (String.length word)).
      * rewrite <- Hlen in *.
        replace (S (String.length curr_word) - S pos)%nat
          with (String.length curr_word - pos)%nat by lia.
        change (fact (S (String.length curr_word)))
          with (S (String.length curr_word) * fact (String.length curr_word))%nat.
        rewrite <- Hcount. ring.
      * intros perm Hp. rewrite length_interpolate, <- Hlen. f_equal.
        rewrite <- !chars_length. apply Permutation_length. now apply Hsound.
Qed.

(** With [pos] the last index, the first result is the word read
    backwards and the last result is the word itself. *)
Lemma generate_permutations_ends (pos : nat) :
  forall word perms,
    String.length word = S pos ->
    generate_permutations word pos = Some perms ->
    (exists rest, perms = reversed word :: rest) /\
    (exists init, perms = init ++ [word]).
Proof.
  induction pos as [|pos IH]; intros word perms Hlen Hgen.
  - injection Hgen as <-. split.
    + exists []. f_equal. apply chars_inj. unfold reversed.
      rewrite chars_of_list. rewrite <- chars_length in Hlen.
      destruct (chars word) as [|c [|d l]]; try discriminate. reflexivity.
    + now exists [].
  - destruct (remove_last word pos Hlen) as (ch & Hitem & Hchars & Hlen').
    rewrite generate_permutations_S, Hitem in Hgen.
    set (curr_word := remove_at word (Z.of_nat (S pos))) in *.
    destruct (generate_permutations curr_word pos) as [perms'|] eqn:E;
      [|discriminate].
    injection Hgen as <-.
    destruct (IH curr_word perms' Hlen' E) as [(rest & Hrest) (init & Hinit)].
    split.
    + rewrite Hrest. unfold interpolate_all. cbn [flat_map].
      rewrite interpolate_positions. cbn [seq map app].
      eexists. f_equal. apply chars_inj. unfold reversed.
      rewrite !chars_of_list, Hchars, rev_app_distr. reflexivity.
    + rewrite Hinit. unfold interpolate_all.
      rewrite flat_map_app. cbn [flat_map]. rewrite app_nil_r.
      rewrite interpolate_positions, seq_S, map_app. cbn [map].
      rewrite app_assoc. eexists. f_equal. f_equal.
      apply chars_inj. rewrite chars_of_list, Hchars. simpl Nat.add.
      rewrite <- chars_length. apply insert_at_split_end.
Qed.

End PermutationsAnyPos.

(** X12. Removing the character at index [i] from the [i]-th word of
    [interpolate(ch, word)], as the induction step of
    [generate_permutations] removes [word[pos]], gives [word] back, and
    the character at index [i] of that word is [ch]. *)
Theorem interpolate_then_remove (ch : ascii) (word r : string) (i : nat)
        (Hr : nth_error (interpolate ch word) i = Some r) :
  remove_at r (Z.of_nat i) = word /\ item r (Z.of_nat i) = Some ch.
Proof.
  assert (Hi : (i <= String.length word)%nat).
  { assert (H : nth_error (interpolate ch word) i <> None) by congruence.
    apply nth_error_Some in H. rewrite length_interpolate in H. lia. }
  rewrite nth_error_interpolate in Hr by exact Hi. injection Hr as <-.
  rewrite <- chars_length in Hi.
  split.
  - apply chars_inj. rewrite chars_remove_at, chars_of_list.
    now apply remove_insert_at.
  - rewrite item_nat, chars_of_list. now apply nth_error_insert_at_here.
Qed.

Lemma interpolate_then_remove_witness :
  nth_error (interpolate "x" "ab") 1 = Some "axb" /\
  remove_at "axb" (Z.of_nat 1) = "ab" /\
  item "axb" (Z.of_nat 1) = Some "x"%char.
Proof.
  assert (H : nth_error (interpolate "x" "ab") 1 = Some "axb") by reflexivity.
  split; [exact H|].
  exact (interpolate_then_remove "x" "ab" "axb" 1 H).
Defined.

(** X13. The words returned by [interpolate(ch, word)] are pairwise
    distinct exactly when [ch] does not occur in [word]: inserting [ch]
    just before and just after an occurrence of [ch] gives the same
    word twice. *)
Theorem interpolate_distinct_iff (ch : ascii) (word : string) :
  NoDup (interpolate ch word) <-> ~ In ch (chars word).
Proof.
  split; [|apply NoDup_interpolate].
  intros Hnd Hin. apply In_nth_error in Hin. destruct Hin as (i & Hi).
  assert (Hlt : (i < String.length word)%nat).
  { rewrite <- chars_length. apply nth_error_Some. congruence. }
  rewrite interpolate_positions in Hnd.
  assert (E : i = S i).
  { apply (NoDup_map_injective _ _ i (S i) Hnd).
    - apply in_seq. lia.
    - apply in_seq. lia.
    - f_equal. now apply insert_at_next_to_itself. }
  lia.
Qed.

(** X14. Called with an index [pos >= 1] that is not an index of the
    word ([pos >= len(word)]), [generate_permutations] raises
    [IndexError]: it returns no list. *)
Theorem generate_permutations_index_error (word : string) (pos : nat)
        (Hpos : (1 <= pos)%nat) (Hlen : (String.length word <= pos)%nat) :
  generate_permutations word pos = None /\
  generate_permutations_within pos word (Z.of_nat pos) = Raises.
Proof.
  assert (H : generate_permutations word pos = None).
  { destruct pos as [|pos]; [lia|].
    rewrite generate_permutations_S.
    destruct (generate_permutations _ pos); [|reflexivity].
    rewrite item_nat.
    replace (nth_error (chars word) (S pos)) with (@None ascii); [reflexivity|].
    symmetry. apply nth_error_None. rewrite chars_length. exact Hlen. }
  split; [exact H|].
  rewrite generate_permutations_within_depth, H, Nat.leb_refl. reflexivity.
Qed.

Lemma generate_permutations_index_error_witness :
  (1 <= 2)%nat /\ (String.length "ab" <= 2)%nat /\
  generate_permutations "ab" 2 = None /\
  generate_permutations_within 2 "ab" (Z.of_nat 2) = Raises.
Proof.
  assert (H1 : (1 <= 2)%nat) by lia.
  assert (H2 : (String.length "ab" <= 2)%nat) by (simpl; lia).
  split; [exact H1|]. split; [exact H2|].
  exact (generate_permutations_index_error "ab" 2 H1 H2).
Defined.

(** X15. Called with any index [pos] of the word ([0 <= pos <
    len(word)]), not only the last one, [generate_permutations] returns
    a list; every string in it is a rearrangement of [word], and the
    number of results is [L! / (L - pos)!] for [L = len(word)]. *)
Theorem generate_permutations_any_index (word : string) (pos : nat)
        (Hpos : (pos < String.length word)%nat) :
  exists perms,
    generate_permutations word pos = Some perms /\
    (forall s, In s perms -> Permutation (chars s) (chars word)) /\
    (List.length perms * fact (String.length word - pos) =
     fact (String.length word))%nat.
Proof. now apply generate_permutations_valid_index. Qed.

Lemma generate_permutations_any_index_witness :
  (1 < String.length "abcd")%nat /\
  exists perms,
    generate_permutations "abcd" 1 = Some perms /\
    (forall s, In s perms -> Permutation (chars s) (chars "abcd")) /\
    (List.length perms * fact (String.length "abcd" - 1) =
     fact (String.length "abcd"))%nat.
Proof.
  assert (H : (1 < String.length "abcd")%nat) by (simpl; lia).
  split; [exact H|].
  exact (generate_permutations_any_index "abcd" 1 H).
Defined.

(** X16. For a word of length [L >= 1], the first string returned by
    [generate_permutations(word, L-1)] is the word read backwards and
    the last one is the word itself. *)
Theorem generate_permutations_first_last (word : string) (L : nat)
        (HL : String.length word = L) (Hne : (1 <= L)%nat) :
  exists perms,
    generate_permutations word (L - 1) = Some perms /\
    hd_error perms = Some (reversed word) /\
    last perms "" = word.
Proof.
  destruct L as [|pos]; [lia|].
  replace (S pos - 1)%nat with pos by lia.
  destruct (generate_permutations_last_index pos word HL) as (perms & Hgen & _).
  exists perms. split; [exact Hgen|].
  destruct (generate_permutations_ends pos word perms HL Hgen)
    as [(rest & Hrest) (init & Hinit)].
  split.
  - now rewrite Hrest.
  - rewrite Hinit. apply last_last.
Qed.

Lemma generate_permutations_first_last_witness :
  String.length "abc" = 3%nat /\ (1 <= 3)%nat /\
  exists perms,
    generate_permutations "abc" (3 - 1) = Some perms /\
    hd_error perms = Some (reversed "abc") /\
    last perms "" = "abc".
Proof.
  assert (H1 : String.length "abc" = 3%nat) by reflexivity.
  assert (H2 : (1 <= 3)%nat) by lia.
  split; [exact H1|]. split; [exact H2|].
  exact (generate_permutations_first_last "abc" 3 H1 H2).
Defined.

Section NegativeArguments.

Lemma generate_n_digit_numbers_no_zeros_within_negative (depth : nat) (n : Z) :
  n < 0 -> generate_n_digit_numbers_no_zeros_within depth n = TooDeep.
Proof.
  revert n. induction depth as [|depth IH]; intros n Hn;
    rewrite generate_n_digit_numbers_no_zeros_within_eq;
    destruct (Z.eqb_spec n 0); try lia;
    destruct (Z.eqb_spec n 1); try lia; [reflexivity|].
  now rewrite IH by lia.
Qed.

Lemma generate_permutations_within_negative (depth : nat) (word : string)
      (pos : Z) :
  pos < 0 -> generate_permutations_within depth word pos = TooDeep.
Proof.
  revert word pos. induction depth as [|depth IH]; intros word pos Hpos;
    rewrite generate_permutations_within_eq;
    destruct (Z.eqb_spec pos 0); try lia; [reflexivity|].
  now rewrite IH by lia.
Qed.

End NegativeArguments.

(** X17. With a negative size argument no generator ever returns: the
    recursion moves away from the base case, so every bound on the
    number of nested calls is exceeded (in Python, [RecursionError]),
    for [generate_binary_nums(n)] and
    [generate_n_digit_numbers_no_zeros_recursive(n)] with [n < 0] and
    for [generate_permutations(word, pos)] with [pos < 0]. *)
Theorem generators_negative_argument (depth : nat) (n : Z) (word : string)
        (Hn : n < 0) :
  generate_binary_nums_within depth n = TooDeep /\
  generate_n_digit_numbers_no_zeros_within depth n = TooDeep /\
  generate_permutations_within depth word n = TooDeep.
Proof.
  split; [|split].
  - now apply generate_binary_nums_within_negative.
  - now apply generate_n_digit_numbers_no_zeros_within_negative.
  - now apply generate_permutations_within_negative.
Qed.

Lemma generators_negative_argument_witness :
  -1 < 0 /\
  generate_binary_nums_within 5 (-1) = TooDeep /\
  generate_n_digit_numbers_no_zeros_within 5 (-1) = TooDeep /\
  generate_permutations_within 5 "ab" (-1) = TooDeep.
Proof.
  assert (H : -1 < 0) by lia.
  split; [exact H|].
  exact (generators_negative_argument 5 (-1) "ab" H).
Defined.

(** X18. The recursion depth is not only bounded by the size argument
    but equal to it: [generate_binary_nums(n)] does not return within
    fewer than [n] nested recursive calls,
    [generate_n_digit_numbers_no_zeros_recursive(n)] not within fewer
    than [n - 1], and [generate_permutations(word, pos)] not within
    fewer than [pos], whatever the word. *)
Theorem generators_recursion_depth (n depth : nat) (word : string) :
  ((depth < n)%nat ->
   generate_binary_nums_within depth (Z.of_nat n) = TooDeep /\
   generate_permutations_within depth word (Z.of_nat n) = TooDeep) /\
  ((S depth < n)%nat ->
   generate_n_digit_numbers_no_zeros_within depth (Z.of_nat n) = TooDeep).
Proof.
  split.
  - intros H. rewrite generate_binary_nums_within_depth,
      generate_permutations_within_depth.
    destruct (Nat.leb_spec n depth); [lia|]. now split.
  - intros H. rewrite generate_n_digit_numbers_no_zeros_within_depth.
    destruct (Nat.leb_spec n (S depth)); [lia|reflexivity].
Qed.
